(** * Streamwall: the view scheduler of [StreamWindow] and the view preload script

    A shallow embedding of [src/node/StreamWindow.js] ([setViews],
    [setListeningView]) and of the [main] function of the view preload
    script, together with the properties the design document states
    about them. *)

From Stdlib Require Import ZArith List Bool Lia.
From stdpp Require Import base list strings pretty.

Open Scope Z_scope.

(** ** Data model *)

(** The [pos] object built by [setViews] (lines 135-141): a pixel rectangle
    and the grid cells ("spaces") the rectangle covers. *)
Record Pos := mkPos {
  pos_x : Z;
  pos_y : Z;
  pos_width : Z;
  pos_height : Z;
  pos_spaces : list Z
}.

(** A box returned by [boxesFromViewURLMap]: [{ url, x, y, w, h, spaces }].
    [undefined] and [null] urls are [None]. *)
Record Box := mkBox {
  box_url : option string;
  box_x : Z;
  box_y : Z;
  box_w : Z;
  box_h : Z;
  box_spaces : list Z
}.

(** [state.value] of a view service. *)
Inductive StateValue := idle | loading | displaying.

(** [state.context], as [handleViewTransition] projects it. *)
Record Context := mkContext {
  url : option string;
  info : option string;
  pos : option Pos
}.

(** The current state of one view service; [muted] is the mute flag of the
    rendering surface. *)
Record ViewState := mkView {
  value : StateValue;
  context : Context;
  muted : bool
}.

(** Events a view service receives. [DISPLAY], [CLEAR], [MUTE] and [UNMUTE]
    are the ones [StreamWindow] sends; the last two come from the surface. *)
Inductive Event :=
  | DISPLAY (p : Pos) (u : string)
  | CLEAR
  | MUTE
  | UNMUTE
  | CONTENT_READY (i : option string)
  | CONTENT_FAILED.

#[global] Instance Pos_eq_dec : EqDecision Pos.
Proof. solve_decision. Defined.
#[global] Instance StateValue_eq_dec : EqDecision StateValue.
Proof. solve_decision. Defined.
#[global] Instance Context_eq_dec : EqDecision Context.
Proof. solve_decision. Defined.
#[global] Instance ViewState_eq_dec : EqDecision ViewState.
Proof. solve_decision. Defined.
#[global] Instance Event_eq_dec : EqDecision Event.
Proof. solve_decision. Defined.

(** [state.matches('displaying')] *)
Definition matches_displaying (s : ViewState) : bool :=
  bool_decide (value s = displaying).

(** [s.state.context.url === u] for a string [u] *)
Definition url_is (u : string) (s : ViewState) : bool :=
  bool_decide (url (context s) = Some u).

(** The window: the array [this.views] of view services, given by their
    current states, and the history of the events sent to them
    ([(idx, ev)] for [views[idx].send(ev)], oldest first). *)
Record Window := mkWindow {
  views : list ViewState;
  sent : list (nat * Event)
}.

(** How a statement ends: normally, or by a thrown [TypeError]; either way
    the state reached so far stays. *)
Inductive Completion (A : Type) :=
  | Normal (a : A)
  | Throw (a : A).
Arguments Normal {A} a.
Arguments Throw {A} a.

Definition outcome {A} (c : Completion A) : A :=
  match c with Normal a => a | Throw a => a end.

Definition is_normal {A} (c : Completion A) : bool :=
  match c with Normal _ => true | Throw _ => false end.

(** [Array.prototype.find] with the index made explicit: the first index
    whose element satisfies [p]. *)
Fixpoint find_from {A} (p : nat -> A -> bool) (i : nat) (l : list A) : option nat :=
  match l with
  | [] => None
  | a :: l' => if p i a then Some i else find_from p (S i) l'
  end.

Definition find {A} (p : nat -> A -> bool) (l : list A) : option nat :=
  find_from p 0%nat l.

(** JavaScript truthiness of a url: [undefined], [null] and the empty
    string are falsy. *)
Definition truthy (o : option string) : option string :=
  match o with
  | Some u => if bool_decide (u = EmptyString) then None else Some u
  | None => None
  end.

(** [unusedViews] is a [Set] of services; services are named by their index
    in [views], and the list keeps the insertion order of the set. *)
Definition has (unusedViews : list nat) (i : nat) : bool :=
  bool_decide (i ∈ unusedViews).

Definition delete (i : nat) (unusedViews : list nat) : list nat :=
  filter (λ j, j ≠ i) unusedViews.

(** ** The scheduler, for any view state machine *)

Section Scheduler.

(** [SPACE_WIDTH] and [SPACE_HEIGHT] come from [constants.js]. *)
Variables SPACE_WIDTH SPACE_HEIGHT : Z.

(** The transition function of [viewStateMachine]: the state of a service
    after it processed an event. *)
Variable transition : ViewState -> Event -> ViewState.

(** [views[idx].send(ev)] *)
Definition send (idx : nat) (ev : Event) (win : Window) : Window :=
  {| views := alter (λ s, transition s ev) idx (views win);
     sent := sent win ++ [(idx, ev)] |}.

Definition box_pos (box : Box) : Pos :=
  {| pos_x := SPACE_WIDTH * box_x box;
     pos_y := SPACE_HEIGHT * box_y box;
     pos_width := SPACE_WIDTH * box_w box;
     pos_height := SPACE_HEIGHT * box_h box;
     pos_spaces := box_spaces box |}.

(** Lines 127-134: the two [views.find] calls. *)
Definition find_space (vs : list ViewState) (unusedViews : list nat) (u : string)
  : option nat :=
  match find (λ i s, has unusedViews i && url_is u s) vs with
  | Some i => Some i
  | None => find (λ i s, has unusedViews i && negb (matches_displaying s)) vs
  end.

(** Lines 120-143: the body of the loop over the boxes. *)
Definition place_box (box : Box) (st : Window * list nat)
  : Completion (Window * list nat) :=
  match truthy (box_url box) with
  | None => Normal st
  | Some u =>
      match find_space (views st.1) st.2 u with
      | Some i => Normal (send i (DISPLAY (box_pos box) u) st.1, delete i st.2)
      | None => Throw st
      end
  end.

Fixpoint place_boxes (boxes : list Box) (st : Window * list nat)
  : Completion (Window * list nat) :=
  match boxes with
  | [] => Normal st
  | box :: rest =>
      match place_box box st with
      | Normal st' => place_boxes rest st'
      | Throw st' => Throw st'
      end
  end.

(** Lines 146-148 *)
Definition clear_unused (unusedViews : list nat) (win : Window) : Window :=
  fold_left (λ w i, send i CLEAR w) unusedViews win.

Definition all_views (win : Window) : list nat :=
  seq 0 (length (views win)).

(** [setViews], from the boxes that [boxesFromViewURLMap(GRID_COUNT,
    GRID_COUNT, viewURLMap)] returned. *)
Definition setViews (boxes : list Box) (win : Window) : Completion Window :=
  match place_boxes boxes (win, all_views win) with
  | Normal (win', unusedViews) => Normal (clear_unused unusedViews win')
  | Throw (win', _) => Throw win'
  end.

(** [setListeningView]: lines 153-160. Reading [spaces] of a missing
    [pos] throws. *)
Fixpoint listen_from (viewIdx : Z) (idxs : list nat) (win : Window)
  : Completion Window :=
  match idxs with
  | [] => Normal win
  | i :: rest =>
      match views win !! i with
      | None => listen_from viewIdx rest win
      | Some view =>
          if negb (matches_displaying view) then listen_from viewIdx rest win
          else
            match pos (context view) with
            | None => Throw win
            | Some p =>
                let isSelectedView := bool_decide (viewIdx ∈ pos_spaces p) in
                listen_from viewIdx rest
                  (send i (if isSelectedView then UNMUTE else MUTE) win)
            end
      end
  end.

Definition setListeningView (viewIdx : Z) (win : Window) : Completion Window :=
  listen_from viewIdx (all_views win) win.

(** *** A read-then-act variant of the pass

    The design document describes the pass as reading the state of the
    whole pool once, before any command is issued. This variant does so:
    phase one plans all commands against a snapshot of (url, state value)
    per view, phase two issues them. *)

Definition pool_snapshot (win : Window) : list (option string * StateValue) :=
  map (λ s, (url (context s), value s)) (views win).

Definition match_slot (snap : list (option string * StateValue))
    (unclaimed : list nat) (u : string) : option nat :=
  match find (λ i e, has unclaimed i && bool_decide (e.1 = Some u)) snap with
  | Some i => Some i
  | None => find (λ i e, has unclaimed i && negb (bool_decide (e.2 = displaying))) snap
  end.

(** Phase one: the [DISPLAY] commands planned so far, and the views left
    unclaimed, or [None] when a region found no candidate. *)
Fixpoint plan_regions (snap : list (option string * StateValue))
    (boxes : list Box) (unclaimed : list nat)
  : list (nat * Event) * option (list nat) :=
  match boxes with
  | [] => ([], Some unclaimed)
  | box :: rest =>
      match truthy (box_url box) with
      | None => plan_regions snap rest unclaimed
      | Some u =>
          match match_slot snap unclaimed u with
          | None => ([], None)
          | Some i =>
              let r := plan_regions snap rest (delete i unclaimed) in
              ((i, DISPLAY (box_pos box) u) :: r.1, r.2)
          end
      end
  end.

(** Phase two *)
Definition issue (cmds : list (nat * Event)) (win : Window) : Window :=
  fold_left (λ w c, send c.1 c.2 w) cmds win.

Definition setViews_read_then_act (boxes : list Box) (win : Window)
  : Completion Window :=
  match plan_regions (pool_snapshot win) boxes (all_views win) with
  | (cmds, Some unclaimed) =>
      Normal (issue (cmds ++ map (λ i, (i, CLEAR)) unclaimed) win)
  | (_, None) => Throw win
  end.

End Scheduler.

(** The events sent between two states of the window. *)
Definition issued (before after : Window) : list (nat * Event) :=
  drop (length (sent before)) (sent after).

(** The views that were sent a [DISPLAY]: the views claimed for a region. *)
Definition is_display (c : nat * Event) : bool :=
  match c.2 with DISPLAY _ _ => true | _ => false end.

Definition claimed (cmds : list (nat * Event)) : list nat :=
  map fst (List.filter is_display cmds).

Definition display_url (c : nat * Event) : option string :=
  match c.2 with DISPLAY _ u => Some u | _ => None end.

Definition region_urls (boxes : list Box) : list string :=
  omap (λ b, truthy (box_url b)) boxes.

(** ** The view state machine *)

(** Modelled from the spec: [viewStateMachine.js] is not among the sources.
    The design document gives the states [idle], [loading], [displaying]
    and these transitions: [idle --DISPLAY--> loading] (navigate to the url,
    record the position); [loading --content-ready--> displaying] (record
    the metadata); [loading --content-failed--> idle]; [displaying
    --DISPLAY(same url)--> displaying] (position only); [displaying
    --DISPLAY(different url)--> loading]; [displaying | loading --CLEAR-->
    idle] (url, position and metadata cleared); [MUTE] and [UNMUTE] in any
    state set the mute flag. A [DISPLAY] received while [loading] supersedes
    the load in flight. The document names no change of the context for
    [content-failed], and no transition for [CLEAR] in [idle] or for the
    surface events outside [loading]: these leave the context, respectively
    the state, as it is. *)
Definition viewStateMachine (s : ViewState) (e : Event) : ViewState :=
  match e with
  | DISPLAY p u =>
      match value s with
      | displaying =>
          if url_is u s then
            {| value := displaying;
               context := {| url := url (context s); info := info (context s);
                             pos := Some p |};
               muted := muted s |}
          else
            {| value := loading;
               context := {| url := Some u; info := info (context s);
                             pos := Some p |};
               muted := muted s |}
      | idle | loading =>
          {| value := loading;
             context := {| url := Some u; info := info (context s);
                           pos := Some p |};
             muted := muted s |}
      end
  | CLEAR =>
      match value s with
      | idle => s
      | loading | displaying =>
          {| value := idle;
             context := {| url := None; info := None; pos := None |};
             muted := muted s |}
      end
  | MUTE => {| value := value s; context := context s; muted := true |}
  | UNMUTE => {| value := value s; context := context s; muted := false |}
  | CONTENT_READY i =>
      match value s with
      | loading =>
          {| value := displaying;
             context := {| url := url (context s); info := i;
                           pos := pos (context s) |};
             muted := muted s |}
      | idle | displaying => s
      end
  | CONTENT_FAILED =>
      match value s with
      | loading =>
          {| value := idle; context := context s; muted := muted s |}
      | idle | displaying => s
      end
  end.

(** The context of a machine that was never sent anything. *)
Definition empty_view : ViewState :=
  {| value := idle;
     context := {| url := None; info := None; pos := None |};
     muted := false |}.

(** ** The view preload script *)

(** [content.kind] *)
Inductive Kind := video | audio | web | other_kind.

(** Messages on the channel to the main process: [view-info] with the
    title found, [view-loaded], [view-error]. *)
Inductive IpcMessage :=
  | view_info (title : string)
  | view_loaded
  | view_error.

#[global] Instance IpcMessage_eq_dec : EqDecision IpcMessage.
Proof. solve_decision. Defined.

(** How an awaited promise settles, if it does. *)
Inductive Settled (A : Type) :=
  | Fulfilled (a : A)
  | Rejected
  | Pending.
Arguments Fulfilled {A} a.
Arguments Rejected {A}.
Arguments Pending {A}.

(** An async function run to the point where it settles or waits for ever:
    the messages it sent, and how its promise settled. *)
Definition Async (A : Type) : Type := (list IpcMessage * Settled A)%type.

#[global] Instance Async_ret : MRet Async := λ A a, ([], Fulfilled a).

#[global] Instance Async_bind : MBind Async := λ A B k m,
  match m.2 with
  | Fulfilled a => (m.1 ++ (k a).1, (k a).2)
  | Rejected => (m.1, Rejected)
  | Pending => (m.1, Pending)
  end.

Definition await {A} (p : Settled A) : Async A := ([], p).
Definition throw {A} : Async A := ([], Rejected).
Definition ipc_send (m : IpcMessage) : Async unit := ([m], Fulfilled tt).

(** What the page and the main process do during one load. *)
Record Page := mkPage {
  (** the reply to [ipcRenderer.invoke('view-init')]: its [content.kind],
      [None] when the reply has no [content] *)
  viewInit : Settled (option Kind);
  (** whether the process emits ['loaded'] *)
  pageLoaded : bool;
  (** whether [waitForVideo] finds a media element (in the document or in
      an iframe) before it gives up *)
  videoFound : bool;
  (** moving the element found into the document (lines 196-210) throws *)
  attachFails : bool;
  (** [video.videoWidth] is non-zero right after [video.play()] *)
  hasVideoWidth : bool;
  (** the element emits ['play'] *)
  playFires : bool;
  (** [document.title] *)
  documentTitle : string
}.

(** [Promise.all([viewInit, pageReady])] *)
Definition viewInit_and_pageReady (pg : Page) : Settled (option Kind) :=
  match viewInit pg with
  | Fulfilled c => if pageLoaded pg then Fulfilled c else Pending
  | Rejected => Rejected
  | Pending => Pending
  end.

(** [findVideo]: throws when no element is found, waits for ['play'] when
    the video has no width yet, returns [info]. The changes it makes to the
    document send no message; of them only a failure is kept. *)
Definition findVideo (pg : Page) : Async string :=
  if negb (videoFound pg) then throw
  else if attachFails pg then throw
  else
    _ ← (if hasVideoWidth pg then mret tt
         else await (if playFires pg then Fulfilled tt else Pending));
    mret (documentTitle pg).

(** [main] *)
Definition main (pg : Page) : Async unit :=
  content ← await (viewInit_and_pageReady pg);
  kind ← (match content with Some k => mret k | None => throw end);
  _ ← (match kind with
       | video | audio =>
           title ← findVideo pg;
           ipc_send (view_info title)
       | web | other_kind => mret tt
       end);
  ipc_send view_loaded.

(** [main().catch(err => ipcRenderer.send('view-error', { err }))]: all
    the messages of one load. *)
Definition preload (pg : Page) : list IpcMessage :=
  match (main pg).2 with
  | Rejected => (main pg).1 ++ [view_error]
  | Fulfilled _ | Pending => (main pg).1
  end.

Definition count_msg (p : IpcMessage -> bool) (t : list IpcMessage) : nat :=
  length (List.filter p t).

Definition is_view_info (m : IpcMessage) : bool :=
  match m with view_info _ => true | _ => false end.
Definition is_view_loaded (m : IpcMessage) : bool :=
  match m with view_loaded => true | _ => false end.
Definition is_view_error (m : IpcMessage) : bool :=
  match m with view_error => true | _ => false end.

(** The commands [setListeningView] sends, read off the states of the views:
    one per view in the [displaying] state. *)
Definition view_spaces (s : ViewState) : list Z :=
  match pos (context s) with
  | Some p => pos_spaces p
  | None => []
  end.

Definition focus_cmds (viewIdx : Z) (vs : list ViewState) (idxs : list nat)
  : list (nat * Event) :=
  omap (λ i,
    match vs !! i with
    | Some s =>
        if matches_displaying s then
          Some (i, if bool_decide (viewIdx ∈ view_spaces s) then UNMUTE else MUTE)
        else None
    | None => None
    end) idxs.

(** A cell index of the [GRID_COUNT] x [GRID_COUNT] grid. *)
Definition in_grid (GRID_COUNT c : Z) : Prop :=
  0 <= c < GRID_COUNT * GRID_COUNT.

(** The views a region can take whatever its url: the views of the pool that
    are not [displaying]. *)
Definition free_view (vs : list ViewState) (i : nat) : bool :=
  match vs !! i with
  | Some s => negb (matches_displaying s)
  | None => false
  end.

Definition free_views (win : Window) : list nat :=
  List.filter (free_view (views win)) (seq 0 (length (views win))).

(** ** Sample walls

    Cells of 640 x 360 pixels on a 3 x 3 grid, a cell at column [x] and row
    [y] having the index [3 * y + x]. *)

Definition cell_pos (x y : Z) : Pos :=
  mkPos (640 * x) (360 * y) 640 360 [3 * y + x].

Definition cell_box (u : string) (x y : Z) : Box :=
  mkBox (Some u) x y 1 1 [3 * y + x].

(** A view that shows [u] in the cell at [(x, y)]. *)
Definition shown (u : string) (x y : Z) : ViewState :=
  {| value := displaying;
     context := {| url := Some u; info := None; pos := Some (cell_pos x y) |};
     muted := false |}.

(** A pool of ten views, as [init] builds it: the second and the third show
    ["b"] and ["a"], the others are free. *)
Definition small_wall : Window :=
  {| views := [empty_view; shown "b" 1 0; shown "a" 0 0] ++ replicate 7 empty_view;
     sent := [] |}.

(** The pool with nine views showing the nine cells of the grid and one
    free. *)
Definition full_wall : Window :=
  {| views := [shown "a" 0 0; shown "b" 1 0; shown "c" 2 0;
               shown "d" 0 1; shown "e" 1 1; shown "f" 2 1;
               shown "g" 0 2; shown "h" 1 2; shown "i" 2 2;
               empty_view];
     sent := [] |}.

(** The same wall with the urls of the last two cells replaced. *)
Definition next_layout : list Box :=
  [cell_box "a" 0 0; cell_box "b" 1 0; cell_box "c" 2 0;
   cell_box "d" 0 1; cell_box "e" 1 1; cell_box "f" 2 1;
   cell_box "g" 0 2; cell_box "x" 1 2; cell_box "y" 2 2].

(** A layout with the url ["a"] in two corners of the grid, and the wall it
    is applied to: ["a"] already shown by the second view. *)
Definition twin_layout : list Box :=
  [cell_box "a" 0 0; cell_box "a" 2 2].

Definition twin_wall : Window :=
  {| views := [empty_view; shown "a" 1 1] ++ replicate 8 empty_view; sent := [] |}.

(** A layout of two regions with different urls and a cell without url. *)
Definition plain_layout : list Box :=
  [cell_box "a" 2 2; mkBox None 1 1 1 1 [4]; cell_box "c" 0 1].

(** ** The aggregate of view states

    [this.viewStates] is a [Map] from the index of a view to the last state
    [handleViewTransition] saw for it. A [Map] keeps its keys in the order in
    which they were first set. *)

(** [{ state: state.value, context: { url, info, pos } }] *)
Record ViewStateEntry := mkEntry {
  entry_state : StateValue;
  entry_context : Context
}.

Definition entry_of (s : ViewState) : ViewStateEntry :=
  {| entry_state := value s;
     entry_context := {| url := url (context s); info := info (context s);
                         pos := pos (context s) |} |}.

(** [Map.prototype.set]: the value of a key that is present is replaced in
    place, a new key goes to the end. *)
Fixpoint map_set {V} (k : nat) (v : V) (m : list (nat * V)) : list (nat * V) :=
  match m with
  | [] => [(k, v)]
  | e :: m' => if decide (e.1 = k) then (k, v) :: m' else e :: map_set k v m'
  end.

(** [Map.prototype.get] *)
Fixpoint map_get {V} (k : nat) (m : list (nat * V)) : option V :=
  match m with
  | [] => None
  | e :: m' => if decide (e.1 = k) then Some e.2 else map_get k m'
  end.

(** [viewStates], and the payloads of the ['state'] events emitted so far. *)
Record Aggregate := mkAggregate {
  viewStates : list (nat * ViewStateEntry);
  emitted : list (list ViewStateEntry)
}.

(** The constructor's [new Map()], nothing emitted. *)
Definition new_aggregate : Aggregate := {| viewStates := []; emitted := [] |}.

(** [handleViewTransition(idx, state)] *)
Definition handleViewTransition (idx : nat) (state : ViewState) (agg : Aggregate)
  : Aggregate :=
  let viewStates' := map_set idx (entry_of state) (viewStates agg) in
  {| viewStates := viewStates';
     emitted := emitted agg ++ [map snd viewStates'] |}.

(** A run of transitions, each reported to [handleViewTransition]. *)
Definition handleViewTransitions (ts : list (nat * ViewState)) (agg : Aggregate)
  : Aggregate :=
  fold_left (λ a t, handleViewTransition t.1 t.2 a) ts agg.

(** The last state reported for [idx] in a run, if any. *)
Definition last_state (idx : nat) (ts : list (nat * ViewState)) : option ViewState :=
  snd <$> last (List.filter (λ t, bool_decide (t.1 = idx)) ts).

(** ** The rotation controller of the preload script *)

(** A [RotationController] with the [className] of its video and the
    rotations [console.warn] was called with. Rotations are integers. *)
Record RotationController := mkRotation {
  siteRotation : Z;
  customRotation : Z;
  className : string;
  warned : list Z
}.

(** [new RotationController(video)], for a video of class [cls]. *)
Definition newRotationController (cls : string) : RotationController :=
  {| siteRotation := 0; customRotation := 0; className := cls; warned := [] |}.

(** [_update]: [%] is the remainder with the sign of the dividend. *)
Definition rotation_update (c : RotationController) : RotationController :=
  let rotation := Z.rem (siteRotation c + customRotation c) 360 in
  {| siteRotation := siteRotation c;
     customRotation := customRotation c;
     className := "__rot" +:+ pretty rotation +:+ "__";
     warned := if bool_decide (rotation ∈ [0; 90; 180; 270])
               then warned c else warned c ++ [rotation] |}.

(** [setSite(rotation = 0)]: a missing argument is [0]. *)
Definition setSite (rotation : option Z) (c : RotationController)
  : RotationController :=
  rotation_update {| siteRotation := default 0 rotation;
                     customRotation := customRotation c;
                     className := className c;
                     warned := warned c |}.

(** [setCustom(rotation = 0)] *)
Definition setCustom (rotation : option Z) (c : RotationController)
  : RotationController :=
  rotation_update {| siteRotation := siteRotation c;
                     customRotation := default 0 rotation;
                     className := className c;
                     warned := warned c |}.

(** The classes [VIDEO_OVERRIDE_STYLE] has a rule for, and the class without
    rotation. *)
Definition rotation_classes : list string :=
  ["__rot0__"; "__rot90__"; "__rot180__"; "__rot270__"].

(** [String.prototype.endsWith] *)
Definition endsWith (s suffix_ : string) : bool :=
  bool_decide (String.list_ascii_of_string suffix_
               `suffix_of` String.list_ascii_of_string s).

(** The rotation [positionPeriscopeVideo] reads from
    [baseVideoEl.style.transform]; [None] is [undefined]. *)
Definition periscope_rotation (tr : string) : option Z :=
  if endsWith tr "matrix(0, 1, -1, 0, 0, 0)" then Some 90
  else if endsWith tr "matrix(-1, 0, 0, -1, 0)" then Some 180
  else if endsWith tr "matrix(0, -1, 1, 0, 0, 0)" then Some 270
  else None.

(** [positionPeriscopeVideo] *)
Definition positionPeriscopeVideo (tr : string) (c : RotationController)
  : RotationController :=
  setSite (periscope_rotation tr) c.

(** ** Watching for media tags *)

(** An element of the page, by a name. *)
Definition Element : Type := nat.

(** The state of one [watchMediaTags(kind, onFirstOfKind)]: [foundMatch],
    the elements [onFirstOfKind] was called with, and the number of calls of
    [lockdownMediaTags]. *)
Record Watcher := mkWatcher {
  foundMatch : bool;
  reported : list Element;
  lockdowns : nat
}.

Definition new_watcher : Watcher :=
  {| foundMatch := false; reported := []; lockdowns := 0 |}.

(** One call of the [MutationObserver] callback; [el] is what
    [document.querySelector(kind)] returns at that time. *)
Definition on_mutation (kind : string) (el : option Element) (w : Watcher)
  : Watcher :=
  let w' :=
    if bool_decide (kind = EmptyString) then w
    else
      match el with
      | Some e =>
          if negb (foundMatch w) then
            {| foundMatch := true; reported := reported w ++ [e];
               lockdowns := lockdowns w |}
          else w
      | None => w
      end in
  {| foundMatch := foundMatch w'; reported := reported w';
     lockdowns := S (lockdowns w') |}.

Definition on_mutations (kind : string) (els : list (option Element))
  : Watcher :=
  fold_left (λ w el, on_mutation kind el w) els new_watcher.

(** What [waitForVideo] returns: [{ video }], [{ video, iframe }] (the
    iframe by its position among the iframes of the document) or [{}]. *)
Record VideoSearch := mkSearch {
  search_video : option Element;
  search_iframe : option nat
}.

(** The loop over the iframes of the document, [iframes] giving for each
    what [iframe.contentDocument?.querySelector?.(kind)] returns: the first
    iframe with an element, by its position [i]. *)
Fixpoint search_iframes (i : nat) (iframes : list (option Element))
  : option (nat * Element) :=
  match iframes with
  | [] => None
  | Some v :: _ => Some (i, v)
  | None :: rest => search_iframes (S i) rest
  end.

(** [waitForVideo]: [raced] is the value of the race between the tag watcher
    and the ten seconds' sleep. *)
Definition waitForVideo (raced : option Element) (iframes : list (option Element))
  : VideoSearch :=
  match raced with
  | Some v => {| search_video := Some v; search_iframe := None |}
  | None =>
      match search_iframes 0 iframes with
      | Some (i, v) => {| search_video := Some v; search_iframe := Some i |}
      | None => {| search_video := None; search_iframe := None |}
      end
  end.

(** The window as the constructor leaves it: no view yet. *)
Definition new_window : Window := {| views := []; sent := [] |}.

(** A pool of ten views that were never sent anything. *)
Definition started_wall : Window :=
  {| views := replicate 10 empty_view; sent := [] |}.

(** A layout whose cells have no url. *)
Definition blank_layout : list Box :=
  [mkBox None 0 0 1 1 [0]; mkBox (Some "") 1 0 1 1 [1]].

(** A pool whose second view is [displaying] without a position. *)
Definition unplaced_wall : Window :=
  {| views := [shown "a" 0 0;
               {| value := displaying;
                  context := {| url := Some "b"; info := None; pos := None |};
                  muted := false |};
               shown "c" 2 0];
     sent := [] |}.

(** [i] is the first view of the pool that is in [unusedViews] and satisfies
    [P]: the view a [views.find] with such a test returns. *)
Definition first_unclaimed (P : ViewState → Prop) (vs : list ViewState)
    (unusedViews : list nat) (i : nat) : Prop :=
  i ∈ unusedViews ∧
  (∃ s, vs !! i = Some s ∧ P s) ∧
  ∀ j s, (j < i)%nat → j ∈ unusedViews → vs !! j = Some s → ¬ P s.

(** A layout whose first cell has no url and whose second cell has one. *)
Definition late_layout : list Box :=
  [mkBox None 0 0 1 1 [0]; cell_box "a" 1 0].

(** * Properties *)

(** ** [find] *)

Lemma find_from_Some {A} (p : nat -> A -> bool) l k i :
  find_from p k l = Some i ↔
  ∃ n, i = (k + n)%nat ∧ (∃ a, l !! n = Some a ∧ p i a = true) ∧
       ∀ m b, (m < n)%nat → l !! m = Some b → p (k + m)%nat b = false.
Proof.
  revert k. induction l as [|a l IH]; intros k; simpl.
  - split; [done|]. intros (n & _ & (a & Ha & _) & _). done.
  - destruct (p k a) eqn:Hp.
    + split.
      * intros [= <-]. exists 0%nat. split; [lia|]. split.
        -- by exists a.
        -- intros m b Hm. lia.
      * intros (n & -> & (a' & Ha' & Hpa') & Hmin).
        destruct n as [|n]; [f_equal; lia|].
        specialize (Hmin 0%nat a ltac:(lia) eq_refl).
        rewrite Nat.add_0_r in Hmin. congruence.
    + rewrite IH. split.
      * intros (n & -> & (a' & Ha' & Hpa') & Hmin).
        exists (S n). split; [lia|]. split.
        -- exists a'. split; [done|]. by replace (k + S n)%nat with (S k + n)%nat by lia.
        -- intros [|m] b Hm Hb; simpl in Hb.
           ++ injection Hb as <-. by rewrite Nat.add_0_r.
           ++ replace (k + S m)%nat with (S k + m)%nat by lia.
              apply Hmin; [lia|done].
      * intros (n & -> & (a' & Ha' & Hpa') & Hmin).
        destruct n as [|n].
        { simpl in Ha'. injection Ha' as <-. rewrite Nat.add_0_r in Hpa'. congruence. }
        exists n. split; [lia|]. split.
        -- exists a'. split; [done|]. by replace (S k + n)%nat with (k + S n)%nat by lia.
        -- intros m b Hm Hb. replace (S k + m)%nat with (k + S m)%nat by lia.
           apply Hmin; [lia|done].
Qed.

Lemma find_Some {A} (p : nat -> A -> bool) l i :
  find p l = Some i ↔
  (∃ a, l !! i = Some a ∧ p i a = true) ∧
  ∀ m b, (m < i)%nat → l !! m = Some b → p m b = false.
Proof.
  unfold find. rewrite find_from_Some. split.
  - intros (n & -> & H1 & H2). simpl in *. done.
  - intros [H1 H2]. exists i. simpl. done.
Qed.

Lemma find_None {A} (p : nat -> A -> bool) l :
  find p l = None ↔ ∀ m b, l !! m = Some b → p m b = false.
Proof.
  split.
  - intros Hf m. induction (lt_wf m) as [m _ IH]. intros b Hb.
    destruct (p m b) eqn:Hp; [|done].
    assert (find p l = Some m) as Hs; [|congruence].
    apply find_Some. split; [by exists b|].
    intros m' b' Hlt Hb'. by apply IH.
  - intros Hall. destruct (find p l) as [i|] eqn:Hf; [|done].
    apply find_Some in Hf as [(a & Ha & Hp) _].
    rewrite (Hall _ _ Ha) in Hp. done.
Qed.

Lemma find_ext {A} (p q : nat -> A -> bool) l :
  (∀ m b, l !! m = Some b → p m b = q m b) → find p l = find q l.
Proof.
  intros Hpq. destruct (find q l) as [i|] eqn:Hq.
  - apply find_Some in Hq as [(a & Ha & Hqa) Hmin]. apply find_Some. split.
    + exists a. split; [done|]. by rewrite (Hpq _ _ Ha).
    + intros m b Hm Hb. rewrite (Hpq _ _ Hb). by apply Hmin.
  - apply find_None. intros m b Hb. rewrite (Hpq _ _ Hb).
    by apply (proj1 (find_None q l) Hq).
Qed.

Lemma find_map {A B} (f : A -> B) (p : nat -> B -> bool) l :
  find p (map f l) = find (λ i a, p i (f a)) l.
Proof.
  unfold find. generalize 0%nat. induction l as [|a l IH]; intros k; simpl; [done|].
  by rewrite IH.
Qed.

Lemma find_lt {A} (p : nat -> A -> bool) l i :
  find p l = Some i → (i < length l)%nat.
Proof.
  intros [(a & Ha & _) _]%find_Some. by eapply lookup_lt_Some.
Qed.

(** ** The unclaimed set *)

Lemma has_true unusedViews i : has unusedViews i = true ↔ i ∈ unusedViews.
Proof. unfold has. by rewrite bool_decide_eq_true. Qed.

Lemma elem_of_delete i j unusedViews :
  j ∈ delete i unusedViews ↔ j ≠ i ∧ j ∈ unusedViews.
Proof. unfold delete. by rewrite list_elem_of_filter. Qed.

Lemma NoDup_delete i unusedViews : NoDup unusedViews → NoDup (delete i unusedViews).
Proof. apply NoDup_filter. Qed.

Lemma find_rel {A B} (p : nat -> A -> bool) (q : nat -> B -> bool) l k :
  length l = length k →
  (∀ m a b, l !! m = Some a → k !! m = Some b → p m a = q m b) →
  find p l = find q k.
Proof.
  intros Hlen Hpq.
  assert (∀ m b, k !! m = Some b → ∃ a, l !! m = Some a) as Hl.
  { intros m b Hb. apply lookup_lt_is_Some. rewrite Hlen. by eapply lookup_lt_Some. }
  assert (∀ m a, l !! m = Some a → ∃ b, k !! m = Some b) as Hk.
  { intros m a Ha. apply lookup_lt_is_Some. rewrite <- Hlen. by eapply lookup_lt_Some. }
  destruct (find q k) as [i|] eqn:Hq.
  - apply find_Some in Hq as [(b & Hb & Hqb) Hmin]. apply find_Some. split.
    + destruct (Hl _ _ Hb) as [a Ha]. exists a. split; [done|].
      by rewrite (Hpq _ _ _ Ha Hb).
    + intros m a Hm Ha. destruct (Hk _ _ Ha) as [b' Hb'].
      rewrite (Hpq _ _ _ Ha Hb'). by apply Hmin.
  - apply find_None. intros m a Ha. destruct (Hk _ _ Ha) as [b Hb].
    rewrite (Hpq _ _ _ Ha Hb). by apply (proj1 (find_None q k) Hq).
Qed.

(** ** Sending events *)

Section SchedulerFacts.

Variables SPACE_WIDTH SPACE_HEIGHT : Z.
Variable transition : ViewState -> Event -> ViewState.

Lemma issue_app cmds1 cmds2 win :
  issue transition (cmds1 ++ cmds2) win =
  issue transition cmds2 (issue transition cmds1 win).
Proof. unfold issue. apply fold_left_app. Qed.

Lemma clear_unused_issue unusedViews win :
  clear_unused transition unusedViews win =
  issue transition (map (λ i, (i, CLEAR)) unusedViews) win.
Proof.
  unfold clear_unused, issue. revert win.
  induction unusedViews as [|i l IH]; intros win; simpl; [done|apply IH].
Qed.

Local Arguments issue : simpl never.

Local Abbreviation send := (send transition).
Local Abbreviation issue := (issue transition).
Local Abbreviation clear_unused := (clear_unused transition).
Local Abbreviation box_pos := (box_pos SPACE_WIDTH SPACE_HEIGHT).
Local Abbreviation place_box := (place_box SPACE_WIDTH SPACE_HEIGHT transition).
Local Abbreviation place_boxes := (place_boxes SPACE_WIDTH SPACE_HEIGHT transition).
Local Abbreviation plan_regions := (plan_regions SPACE_WIDTH SPACE_HEIGHT).
Local Abbreviation setViews := (setViews SPACE_WIDTH SPACE_HEIGHT transition).
Local Abbreviation setViews_read_then_act :=
  (setViews_read_then_act SPACE_WIDTH SPACE_HEIGHT transition).
Local Abbreviation setListeningView := (setListeningView transition).
Local Abbreviation listen_from := (listen_from transition).

Lemma issue_cons c cmds win : issue (c :: cmds) win = issue cmds (send c.1 c.2 win).
Proof. done. Qed.

Lemma sent_issue cmds win : sent (issue cmds win) = sent win ++ cmds.
Proof.
  revert win. induction cmds as [|[i e] cmds IH]; intros win.
  - simpl. by rewrite app_nil_r.
  - rewrite issue_cons, IH. simpl. by rewrite <- app_assoc.
Qed.

Lemma issued_issue cmds win : issued win (issue cmds win) = cmds.
Proof. unfold issued. rewrite sent_issue. apply drop_app_length. Qed.

Lemma length_views_issue cmds win :
  length (views (issue cmds win)) = length (views win).
Proof.
  revert win. induction cmds as [|[i e] cmds IH]; intros win; [done|].
  rewrite issue_cons, IH. simpl. apply length_alter.
Qed.

Lemma views_issue_other cmds win j :
  j ∉ map fst cmds → views (issue cmds win) !! j = views win !! j.
Proof.
  revert win. induction cmds as [|[i e] cmds IH]; intros win Hj; [done|].
  rewrite issue_cons, IH.
  - simpl. apply list_lookup_alter_ne. intros ->. apply Hj. simpl. left.
  - intros Hin. apply Hj. simpl. by right.
Qed.

Lemma views_issue_once cmds win j e :
  NoDup (map fst cmds) → (j, e) ∈ cmds →
  views (issue cmds win) !! j = (λ s, transition s e) <$> views win !! j.
Proof.
  revert win. induction cmds as [|[i e'] cmds IH]; intros win Hnd Hin.
  - by apply elem_of_nil in Hin.
  - simpl in Hnd. apply NoDup_cons in Hnd as [Hi Hnd].
    rewrite issue_cons. simpl. apply elem_of_cons in Hin as [[= <- <-]|Hin].
    + rewrite views_issue_other by done. simpl. apply list_lookup_alter_eq.
    + rewrite IH by done. simpl. rewrite list_lookup_alter_ne; [done|].
      intros ->. apply Hi. apply list_elem_of_fmap. by exists (j, e).
Qed.

(** ** The pass against a snapshot *)

Lemma find_space_snapshot snap vs unusedViews u :
  length snap = length vs →
  (∀ j e s, j ∈ unusedViews → snap !! j = Some e → vs !! j = Some s →
            e = (url (context s), value s)) →
  find_space vs unusedViews u = match_slot snap unusedViews u.
Proof.
  intros Hlen Hag. unfold find_space, match_slot.
  assert (find (λ i s, has unusedViews i && url_is u s) vs =
          find (λ i e, has unusedViews i && bool_decide (e.1 = Some u)) snap) as ->.
  { apply find_rel; [done|]. intros m s e Hs He.
    destruct (has unusedViews m) eqn:Hm; [|done]. apply has_true in Hm.
    rewrite (Hag _ _ _ Hm He Hs). done. }
  assert (find (λ i s, has unusedViews i && negb (matches_displaying s)) vs =
          find (λ i e, has unusedViews i && negb (bool_decide (e.2 = displaying))) snap)
    as ->; [|done].
  apply find_rel; [done|]. intros m s e Hs He.
  destruct (has unusedViews m) eqn:Hm; [|done]. apply has_true in Hm.
  rewrite (Hag _ _ _ Hm He Hs). done.
Qed.

Lemma place_boxes_plan snap boxes : ∀ win unusedViews,
  length snap = length (views win) →
  (∀ j e s, j ∈ unusedViews → snap !! j = Some e → views win !! j = Some s →
            e = (url (context s), value s)) →
  (outcome (place_boxes boxes (win, unusedViews))).1
    = issue (plan_regions snap boxes unusedViews).1 win ∧
  is_normal (place_boxes boxes (win, unusedViews))
    = bool_decide (is_Some (plan_regions snap boxes unusedViews).2) ∧
  ∀ rest, (plan_regions snap boxes unusedViews).2 = Some rest →
          (outcome (place_boxes boxes (win, unusedViews))).2 = rest.
Proof.
  induction boxes as [|box boxes IH]; intros win unusedViews Hlen Hag.
  - simpl. split; [done|]. split; [done|]. by intros rest [= <-].
  - simpl. unfold place_box. simpl.
    destruct (truthy (box_url box)) as [u|] eqn:Hu; [|by apply IH].
    rewrite (find_space_snapshot snap) by done.
    destruct (match_slot snap unusedViews u) as [i|] eqn:Hi; simpl.
    2: { split; [done|]. split; [done|]. by intros rest [=]. }
    rewrite issue_cons. simpl. apply IH.
    + simpl. by rewrite length_alter.
    + intros j e s [Hne Hj]%elem_of_delete He. simpl.
      rewrite list_lookup_alter_ne by done. by apply Hag.
Qed.

Lemma pool_snapshot_agrees win (unusedViews : list nat) :
  length (pool_snapshot win) = length (views win) ∧
  ∀ j e s, j ∈ unusedViews → pool_snapshot win !! j = Some e →
           views win !! j = Some s → e = (url (context s), value s).
Proof.
  unfold pool_snapshot. split; [apply length_map|].
  intros j e s _ He Hs. rewrite list_lookup_fmap, Hs in He. by injection He as <-.
Qed.

Lemma setViews_plan boxes win :
  setViews boxes win =
  match (plan_regions (pool_snapshot win) boxes (all_views win)).2 with
  | Some rest =>
      Normal (issue ((plan_regions (pool_snapshot win) boxes (all_views win)).1
                     ++ map (λ i, (i, CLEAR)) rest) win)
  | None =>
      Throw (issue (plan_regions (pool_snapshot win) boxes (all_views win)).1 win)
  end.
Proof.
  destruct (pool_snapshot_agrees win (all_views win)) as [Hlen Hag].
  destruct (place_boxes_plan _ boxes _ _ Hlen Hag) as (Hw & Hn & Hrest).
  unfold setViews.
  destruct (place_boxes boxes (win, all_views win)) as [[w un]|[w un]];
    destruct (plan_regions (pool_snapshot win) boxes (all_views win)).2 as [rest|];
    simpl in *; try done.
  - rewrite issue_app, clear_unused_issue, Hw, (Hrest rest eq_refl). done.
  - by rewrite Hw.
Qed.

Lemma match_slot_unclaimed snap unclaimed u i :
  match_slot snap unclaimed u = Some i → i ∈ unclaimed ∧ (i < length snap)%nat.
Proof.
  unfold match_slot. intros H.
  destruct (find (λ i e, has unclaimed i && bool_decide (e.1 = Some u)) snap)
    as [k|] eqn:Hf.
  - injection H as ->. split; [|by eapply find_lt].
    apply find_Some in Hf as [(a & _ & [Hh _]%andb_true_iff) _]. by apply has_true.
  - split; [|by eapply find_lt].
    apply find_Some in H as [(a & _ & [Hh _]%andb_true_iff) _]. by apply has_true.
Qed.

Lemma plan_regions_targets snap boxes : ∀ unclaimed c,
  c ∈ (plan_regions snap boxes unclaimed).1 →
  c.1 ∈ unclaimed ∧ (c.1 < length snap)%nat ∧ is_display c = true.
Proof.
  induction boxes as [|box boxes IH]; intros unclaimed c; simpl.
  - by intros ?%elem_of_nil.
  - destruct (truthy (box_url box)) as [u|]; [|by apply IH].
    destruct (match_slot snap unclaimed u) as [i|] eqn:Hi; simpl.
    2: by intros ?%elem_of_nil.
    apply match_slot_unclaimed in Hi as [Hi Hlt].
    intros [->|Hc]%elem_of_cons; [done|].
    apply IH in Hc as ([_ Hc]%elem_of_delete & ? & ?). done.
Qed.

Lemma plan_regions_NoDup snap boxes : ∀ unclaimed,
  NoDup (map fst (plan_regions snap boxes unclaimed).1).
Proof.
  induction boxes as [|box boxes IH]; intros unclaimed; simpl.
  - constructor.
  - destruct (truthy (box_url box)) as [u|]; [|by apply IH].
    destruct (match_slot snap unclaimed u) as [i|] eqn:Hi; simpl; [|constructor].
    apply NoDup_cons. split; [|apply IH].
    intros ([j e] & Hj & Hc)%list_elem_of_fmap. simpl in Hj. subst j.
    apply plan_regions_targets in Hc as ([Hne _]%elem_of_delete & _). done.
Qed.

Lemma plan_regions_rest snap boxes : ∀ unclaimed rest,
  (plan_regions snap boxes unclaimed).2 = Some rest →
  ∀ j, j ∈ rest ↔ j ∈ unclaimed ∧ j ∉ map fst (plan_regions snap boxes unclaimed).1.
Proof.
  induction boxes as [|box boxes IH]; intros unclaimed rest; simpl.
  - intros [= <-] j. split; [|tauto]. intros Hj. split; [done|]. by intros ?%elem_of_nil.
  - destruct (truthy (box_url box)) as [u|]; [|by apply IH].
    destruct (match_slot snap unclaimed u) as [i|] eqn:Hi; simpl; [|done].
    intros Hrest j. rewrite (IH _ _ Hrest j), elem_of_delete, not_elem_of_cons. tauto.
Qed.

Lemma plan_regions_rest_NoDup snap boxes : ∀ unclaimed rest,
  NoDup unclaimed →
  (plan_regions snap boxes unclaimed).2 = Some rest → NoDup rest.
Proof.
  induction boxes as [|box boxes IH]; intros unclaimed rest Hnd; simpl.
  - by intros [= <-].
  - destruct (truthy (box_url box)) as [u|]; [|by apply IH].
    destruct (match_slot snap unclaimed u) as [i|] eqn:Hi; simpl; [|done].
    apply IH. by apply NoDup_delete.
Qed.

Lemma plan_regions_urls snap boxes : ∀ unclaimed rest,
  (plan_regions snap boxes unclaimed).2 = Some rest →
  omap display_url (plan_regions snap boxes unclaimed).1 = region_urls boxes.
Proof.
  unfold region_urls.
  induction boxes as [|box boxes IH]; intros unclaimed rest; simpl; [done|].
  destruct (truthy (box_url box)) as [u|]; [|by apply IH].
  destruct (match_slot snap unclaimed u) as [i|] eqn:Hi; simpl; [|done].
  intros Hrest. f_equal. apply (IH _ _ Hrest).
Qed.

Lemma filter_display_all cmds :
  (∀ c, c ∈ cmds → is_display c = true) → List.filter is_display cmds = cmds.
Proof.
  induction cmds as [|c cmds IH]; intros Hall; simpl; [done|].
  rewrite (Hall c) by left. f_equal. apply IH. intros c' Hc'. apply Hall. by right.
Qed.

Lemma filter_display_clear (l : list nat) :
  List.filter is_display (map (λ i, (i, CLEAR)) l) = [].
Proof. induction l as [|i l IH]; simpl; done. Qed.

Lemma filter_display_plan snap boxes unclaimed :
  List.filter is_display (plan_regions snap boxes unclaimed).1
  = (plan_regions snap boxes unclaimed).1.
Proof.
  apply filter_display_all. intros c Hc.
  by destruct (plan_regions_targets _ _ _ _ Hc) as (_ & _ & ?).
Qed.

(** ** The reconciliation pass *)

Lemma place_boxes_app boxes1 boxes2 st :
  place_boxes (boxes1 ++ boxes2) st =
  match place_boxes boxes1 st with
  | Normal st' => place_boxes boxes2 st'
  | Throw st' => Throw st'
  end.
Proof.
  revert st. induction boxes1 as [|box boxes1 IH]; intros st; simpl; [done|].
  destruct (place_box box st); [apply IH|done].
Qed.

Lemma setViews_clears_unclaimed boxes win win' i :
  setViews boxes win = Normal win' →
  (i < length (views win))%nat →
  i ∉ claimed (issued win win') →
  (i, CLEAR) ∈ issued win win'.
Proof.
  rewrite setViews_plan.
  destruct (plan_regions (pool_snapshot win) boxes (all_views win)).2
    as [rest|] eqn:Hrest; [|done].
  intros [= <-] Hi. rewrite issued_issue. unfold claimed.
  rewrite List.filter_app, filter_display_clear, app_nil_r, filter_display_plan.
  intros Hout. apply elem_of_app. right. apply list_elem_of_fmap. exists i.
  split; [done|]. apply (plan_regions_rest _ _ _ _ Hrest i).
  split; [|done]. unfold all_views. apply elem_of_seq. lia.
Qed.

(** C10, as the code has it. A region whose url is falsy is skipped: the
    loop body leaves the window and the unclaimed set as they are (no view
    is claimed, nothing is sent), so the pass ends as the pass without that
    region does. The views it did not take stay open to the other regions;
    in a pass that processes all its regions, every view that no region
    claimed is sent [CLEAR] at the end. *)
Theorem empty_url_region_skipped box :
  truthy (box_url box) = None →
  (∀ st, place_box box st = Normal st) ∧
  (∀ before after win,
     setViews (before ++ box :: after) win = setViews (before ++ after) win) ∧
  (∀ before after win win' i,
     setViews (before ++ box :: after) win = Normal win' →
     (i < length (views win))%nat →
     i ∉ claimed (issued win win') →
     (i, CLEAR) ∈ issued win win').
Proof.
  intros Hu.
  assert (∀ st, place_box box st = Normal st) as Hskip.
  { intros st. unfold place_box. by rewrite Hu. }
  split; [done|]. split.
  - intros before after win. unfold setViews.
    rewrite !place_boxes_app. simpl.
    destruct (place_boxes before (win, all_views win)) as [st'|st']; [|done].
    by rewrite Hskip.
  - intros before after win win' i. apply setViews_clears_unclaimed.
Qed.

(** C6. In a pass in which every search yields a candidate, the views that
    are sent a [DISPLAY] are pairwise distinct, so no view is sent two
    [DISPLAY]s, and the [DISPLAY]s sent are, in order, one per region with a
    url: the assignment of regions to views is one-to-one. *)
Theorem claimed_views_distinct boxes win win' :
  setViews boxes win = Normal win' →
  NoDup (claimed (issued win win')) ∧
  omap display_url (List.filter is_display (issued win win')) = region_urls boxes ∧
  (∀ i, i ∈ claimed (issued win win') → (i < length (views win))%nat).
Proof.
  rewrite setViews_plan.
  destruct (plan_regions (pool_snapshot win) boxes (all_views win)).2
    as [rest|] eqn:Hrest; [|done].
  intros [= <-]. rewrite issued_issue. unfold claimed.
  rewrite List.filter_app, filter_display_clear, app_nil_r, filter_display_plan.
  split; [apply plan_regions_NoDup|]. split; [by eapply plan_regions_urls|].
  intros i ([j e] & -> & Hc)%list_elem_of_fmap.
  destruct (plan_regions_targets _ _ _ _ Hc) as (_ & Hlt & _).
  unfold pool_snapshot in Hlt. by rewrite length_map in Hlt.
Qed.

(** X22. No view that was claimed in a pass is sent [CLEAR] in that pass.
    In a pass that processes all its regions, [CLEAR] is sent to exactly the
    views left in [unusedViews] by the loop over the regions, and these are
    exactly the views of the pool that were not claimed: every unclaimed
    view is sent [CLEAR]. *)
Theorem unclaimed_views_cleared boxes win :
  (∀ i, i ∈ claimed (issued win (outcome (setViews boxes win))) →
        (i, CLEAR) ∉ issued win (outcome (setViews boxes win))) ∧
  (∀ win', setViews boxes win = Normal win' →
     ∃ w unusedViews,
       place_boxes boxes (win, all_views win) = Normal (w, unusedViews) ∧
       (∀ i, i ∈ unusedViews ↔
             (i < length (views win))%nat ∧ i ∉ claimed (issued win win')) ∧
       (∀ i, (i, CLEAR) ∈ issued win win' ↔ i ∈ unusedViews)).
Proof.
  destruct (pool_snapshot_agrees win (all_views win)) as [Hlen Hag].
  destruct (place_boxes_plan _ boxes _ _ Hlen Hag) as (Hw & Hn & Hun).
  rewrite setViews_plan.
  destruct (plan_regions (pool_snapshot win) boxes (all_views win)).2
    as [rest|] eqn:Hrest; simpl.
  2: { split; [|done]. intros i _. rewrite issued_issue. intros Hc.
       by destruct (plan_regions_targets _ _ _ _ Hc) as (_ & _ & ?). }
  rewrite issued_issue. unfold claimed.
  rewrite List.filter_app, filter_display_clear, app_nil_r, filter_display_plan.
  assert (∀ i, (i, CLEAR) ∈
                 (plan_regions (pool_snapshot win) boxes (all_views win)).1
                 ++ map (λ i, (i, CLEAR)) rest ↔ i ∈ rest) as Hclear.
  { intros i. rewrite elem_of_app. split.
    - intros [Hc|Hc].
      + by destruct (plan_regions_targets _ _ _ _ Hc) as (_ & _ & ?).
      + apply list_elem_of_fmap in Hc as (j & [= ->] & Hj). done.
    - intros Hi. right. apply list_elem_of_fmap. by exists i. }
  split.
  - intros i Hi. rewrite Hclear, (plan_regions_rest _ _ _ _ Hrest i). tauto.
  - intros win' [= <-].
    destruct (place_boxes boxes (win, all_views win)) as [[w un]|[w un]] eqn:Hpb;
      simpl in Hn; [|done].
    specialize (Hun rest eq_refl). simpl in Hun. subst un.
    exists w, rest. split; [done|]. rewrite issued_issue. unfold claimed.
    rewrite List.filter_app, filter_display_clear, app_nil_r, filter_display_plan.
    split; [|done].
    intros i. rewrite (plan_regions_rest _ _ _ _ Hrest i).
    unfold all_views. rewrite elem_of_seq. intuition lia.
Qed.

(** C7. The pass is equivalent to a read-then-act pass: the [DISPLAY]
    commands the loop of [setViews] sends, reading the live state of the
    views between sends, are the ones planned against a snapshot of the pool
    taken before anything is sent. When every region finds a candidate the
    two passes end in the same window; otherwise [setViews] has sent the
    [DISPLAY]s planned before the search that failed. *)
Theorem setViews_read_then_act_equiv boxes win :
  List.filter is_display (issued win (outcome (setViews boxes win)))
    = (plan_regions (pool_snapshot win) boxes (all_views win)).1 ∧
  setViews boxes win =
    match setViews_read_then_act boxes win with
    | Normal w => Normal w
    | Throw _ =>
        Throw (issue (plan_regions (pool_snapshot win) boxes (all_views win)).1 win)
    end.
Proof.
  rewrite setViews_plan. unfold setViews_read_then_act.
  destruct (plan_regions (pool_snapshot win) boxes (all_views win))
    as [cmds [rest|]] eqn:Hplan; simpl.
  - split; [|done]. rewrite issued_issue, List.filter_app, filter_display_clear, app_nil_r.
    change cmds with (cmds, Some rest).1. rewrite <- Hplan. apply filter_display_plan.
  - split; [|done]. rewrite issued_issue.
    change cmds with (cmds, @None (list nat)).1. rewrite <- Hplan.
    apply filter_display_plan.
Qed.

(** ** Routing the listening focus *)

Lemma focus_cmds_cons viewIdx vs i idxs :
  focus_cmds viewIdx vs (i :: idxs) =
  match vs !! i with
  | Some s =>
      if matches_displaying s then
        (i, if bool_decide (viewIdx ∈ view_spaces s) then UNMUTE else MUTE)
          :: focus_cmds viewIdx vs idxs
      else focus_cmds viewIdx vs idxs
  | None => focus_cmds viewIdx vs idxs
  end.
Proof.
  unfold focus_cmds. simpl. destruct (vs !! i) as [s|]; [|done].
  by destruct (matches_displaying s).
Qed.

Lemma focus_cmds_ext viewIdx vs vs' idxs :
  (∀ j, j ∈ idxs → vs !! j = vs' !! j) →
  focus_cmds viewIdx vs idxs = focus_cmds viewIdx vs' idxs.
Proof.
  induction idxs as [|i idxs IH]; intros Hext; [done|].
  rewrite !focus_cmds_cons, (Hext i) by left. rewrite IH; [done|].
  intros j Hj. apply Hext. by right.
Qed.

Lemma elem_of_focus_cmds viewIdx vs idxs i e :
  (i, e) ∈ focus_cmds viewIdx vs idxs ↔
  i ∈ idxs ∧ ∃ s, vs !! i = Some s ∧ value s = displaying ∧
    e = if bool_decide (viewIdx ∈ view_spaces s) then UNMUTE else MUTE.
Proof.
  unfold focus_cmds. rewrite list_elem_of_omap. split.
  - intros (j & Hj & Hc). destruct (vs !! j) as [s|] eqn:Hs; [|done].
    destruct (matches_displaying s) eqn:Hd; [|done]. injection Hc as -> <-.
    split; [done|]. exists s. split; [done|]. split; [|done].
    unfold matches_displaying in Hd. by apply bool_decide_eq_true in Hd.
  - intros (Hi & s & Hs & Hd & ->). exists i. split; [done|]. rewrite Hs.
    unfold matches_displaying. by rewrite bool_decide_eq_true_2.
Qed.

Lemma listen_from_cmds viewIdx idxs : ∀ win,
  NoDup idxs →
  (∀ i s, i ∈ idxs → views win !! i = Some s → value s = displaying →
          is_Some (pos (context s))) →
  listen_from viewIdx idxs win
  = Normal (issue (focus_cmds viewIdx (views win) idxs) win).
Proof.
  induction idxs as [|i idxs IH]; intros win Hnd Hpos; [done|].
  apply NoDup_cons in Hnd as [Hi Hnd].
  assert (∀ i' s, i' ∈ idxs → views win !! i' = Some s → value s = displaying →
                  is_Some (pos (context s))) as Hpos'.
  { intros i' s Hi'. apply Hpos. by right. }
  rewrite focus_cmds_cons. simpl.
  destruct (views win !! i) as [view|] eqn:Hview; [|by apply IH].
  destruct (matches_displaying view) eqn:Hd; simpl; [|by apply IH].
  assert (value view = displaying) as Hval.
  { unfold matches_displaying in Hd. by apply bool_decide_eq_true in Hd. }
  destruct (Hpos i view ltac:(left) Hview Hval) as [p Hp]. rewrite Hp.
  unfold view_spaces. rewrite Hp, issue_cons. simpl.
  rewrite IH; [|done|].
  - f_equal. f_equal. apply focus_cmds_ext. intros j Hj. simpl.
    apply list_lookup_alter_ne. by intros ->.
  - intros i' s Hi'. simpl. rewrite list_lookup_alter_ne by (by intros ->).
    by apply Hpos'.
Qed.

Lemma setListeningView_cmds viewIdx win :
  (∀ s, s ∈ views win → value s = displaying → is_Some (pos (context s))) →
  setListeningView viewIdx win
  = Normal (issue (focus_cmds viewIdx (views win) (all_views win)) win).
Proof.
  intros Hpos. unfold setListeningView. apply listen_from_cmds.
  - apply NoDup_seq.
  - intros i s _ Hs. apply Hpos. by eapply list_elem_of_lookup_2.
Qed.

(** C3. With every [displaying] view carrying a position,
    [setListeningView c] runs to its end and sends one command to each
    [displaying] view and none to the others: [UNMUTE] to the views whose
    spaces include [c], [MUTE] to the other [displaying] views. *)
Theorem listening_focus_routing viewIdx win :
  (∀ s, s ∈ views win → value s = displaying → is_Some (pos (context s))) →
  ∃ win',
    setListeningView viewIdx win = Normal win' ∧
    issued win win' = focus_cmds viewIdx (views win) (all_views win) ∧
    ∀ i s, views win !! i = Some s →
      (value s = displaying → viewIdx ∈ view_spaces s →
         (i, UNMUTE) ∈ issued win win' ∧ (i, MUTE) ∉ issued win win') ∧
      (value s = displaying → viewIdx ∉ view_spaces s →
         (i, MUTE) ∈ issued win win' ∧ (i, UNMUTE) ∉ issued win win') ∧
      (value s ≠ displaying →
         ((i, MUTE) ∉ issued win win') ∧ (i, UNMUTE) ∉ issued win win').
Proof.
  intros Hpos. eexists. split; [by apply setListeningView_cmds|].
  rewrite issued_issue. split; [done|]. intros i s Hs.
  assert (i ∈ all_views win) as Hi.
  { unfold all_views. apply elem_of_seq. apply lookup_lt_Some in Hs. lia. }
  rewrite !elem_of_focus_cmds. split; [|split].
  - intros Hd Hc. split.
    + split; [done|]. exists s. by rewrite bool_decide_eq_true_2.
    + intros (_ & s' & Hs' & _ & He). rewrite Hs in Hs'. injection Hs' as <-.
      by rewrite bool_decide_eq_true_2 in He.
  - intros Hd Hc. split.
    + split; [done|]. exists s. by rewrite bool_decide_eq_false_2.
    + intros (_ & s' & Hs' & _ & He). rewrite Hs in Hs'. injection Hs' as <-.
      by rewrite bool_decide_eq_false_2 in He.
  - intros Hd. split; intros (_ & s' & Hs' & Hd' & _);
      rewrite Hs in Hs'; by injection Hs' as <-.
Qed.

(** C4, as the code has it. A focus index outside the grid is not
    rejected: when the spaces of the [displaying] views lie in the grid,
    [setListeningView] sends [MUTE] to every [displaying] view, and sends
    nothing else. *)
Theorem out_of_grid_focus_mutes_all GRID_COUNT viewIdx win :
  (∀ s, s ∈ views win → value s = displaying →
        ∃ p, pos (context s) = Some p ∧ ∀ k, k ∈ pos_spaces p → in_grid GRID_COUNT k) →
  ¬ in_grid GRID_COUNT viewIdx →
  ∃ win',
    setListeningView viewIdx win = Normal win' ∧
    ∀ i e, (i, e) ∈ issued win win' ↔
           e = MUTE ∧ ∃ s, views win !! i = Some s ∧ value s = displaying.
Proof.
  intros Hgrid Hout. eexists. split.
  { apply setListeningView_cmds. intros s Hs Hd.
    destruct (Hgrid s Hs Hd) as (p & -> & _). by eexists. }
  rewrite issued_issue. intros i e. rewrite elem_of_focus_cmds.
  assert (∀ s, views win !! i = Some s → value s = displaying →
               viewIdx ∉ view_spaces s) as Hnot.
  { intros s Hs Hd Hin. apply list_elem_of_lookup_2 in Hs.
    destruct (Hgrid s Hs Hd) as (p & Hp & Hall). unfold view_spaces in Hin.
    rewrite Hp in Hin. by apply Hout, Hall. }
  split.
  - intros (_ & s & Hs & Hd & ->).
    rewrite bool_decide_eq_false_2 by (by apply Hnot). split; [done|]. by exists s.
  - intros (-> & s & Hs & Hd). split.
    + unfold all_views. apply elem_of_seq. apply lookup_lt_Some in Hs. lia.
    + exists s. rewrite bool_decide_eq_false_2 by (by apply Hnot). done.
Qed.

(** ** The view a region is given *)

Lemma plan_regions_length snap boxes : ∀ unclaimed rest,
  (plan_regions snap boxes unclaimed).2 = Some rest →
  length (plan_regions snap boxes unclaimed).1 = length (region_urls boxes).
Proof.
  unfold region_urls.
  induction boxes as [|box boxes IH]; intros unclaimed rest; simpl; [done|].
  destruct (truthy (box_url box)) as [u|]; [|by apply IH].
  destruct (match_slot snap unclaimed u) as [i|] eqn:Hi; simpl; [|done].
  intros Hrest. f_equal. apply (IH _ _ Hrest).
Qed.

(** What the loop over the regions has sent: [DISPLAY]s only, one per
    region with a url when it came to its end. *)
Lemma place_boxes_issue boxes w unusedViews :
  ∃ cmds,
    (outcome (place_boxes boxes (w, unusedViews))).1 = issue cmds w ∧
    List.filter is_display cmds = cmds ∧
    (is_normal (place_boxes boxes (w, unusedViews)) = true →
     length cmds = length (region_urls boxes)).
Proof.
  destruct (pool_snapshot_agrees w unusedViews) as [Hlen Hag].
  destruct (place_boxes_plan _ boxes _ _ Hlen Hag) as (Hw & Hn & _).
  exists (plan_regions (pool_snapshot w) boxes unusedViews).1.
  split; [done|]. split; [apply filter_display_plan|].
  rewrite Hn. intros [rest Hrest]%bool_decide_eq_true.
  by eapply plan_regions_length.
Qed.

Lemma setViews_outcome boxes win :
  ∃ tail,
    outcome (setViews boxes win)
    = issue tail (outcome (place_boxes boxes (win, all_views win))).1 ∧
    List.filter is_display tail = [].
Proof.
  unfold setViews.
  destruct (place_boxes boxes (win, all_views win)) as [[w un]|[w un]]; simpl.
  - exists (map (λ i, (i, CLEAR)) un). split; [apply clear_unused_issue|].
    apply filter_display_clear.
  - by exists [].
Qed.

Lemma find_space_first_holder vs unusedViews u :
  (∃ j s, j ∈ unusedViews ∧ vs !! j = Some s ∧ url (context s) = Some u) →
  ∃ i, first_unclaimed (λ s, url (context s) = Some u) vs unusedViews i ∧
       find_space vs unusedViews u = Some i.
Proof.
  intros (j & s & Hj & Hs & Hu). unfold find_space.
  destruct (find (λ i s, has unusedViews i && url_is u s) vs) as [i|] eqn:Hf.
  - exists i. split; [|done].
    apply find_Some in Hf as [(s' & Hs' & [Hh Hq]%andb_true_iff) Hmin].
    split; [by apply has_true|]. split.
    + exists s'. split; [done|]. unfold url_is in Hq.
      by apply bool_decide_eq_true in Hq.
    + intros k sk Hk Hin Hsk Huk.
      pose proof (Hmin k sk Hk Hsk) as Hc. apply andb_false_iff in Hc as [Hc|Hc].
      * apply (proj2 (has_true _ _)) in Hin. congruence.
      * unfold url_is in Hc. by apply bool_decide_eq_false in Hc.
  - pose proof (proj1 (find_None _ _) Hf j s Hs) as Hc.
    apply andb_false_iff in Hc as [Hc|Hc].
    + apply (proj2 (has_true _ _)) in Hj. congruence.
    + unfold url_is in Hc. by apply bool_decide_eq_false in Hc.
Qed.

Lemma find_space_no_holder vs unusedViews u :
  (∀ j s, j ∈ unusedViews → vs !! j = Some s → url (context s) ≠ Some u) →
  find_space vs unusedViews u
  = find (λ i s, has unusedViews i && negb (matches_displaying s)) vs.
Proof.
  intros Hno. unfold find_space.
  assert (find (λ i s, has unusedViews i && url_is u s) vs = None) as ->; [|done].
  apply find_None. intros j s Hs. apply andb_false_iff.
  destruct (has unusedViews j) eqn:Hj; [|by left]. right.
  apply has_true in Hj. unfold url_is. apply bool_decide_eq_false. by eapply Hno.
Qed.

Lemma find_space_first_free vs unusedViews u :
  (∀ j s, j ∈ unusedViews → vs !! j = Some s → url (context s) ≠ Some u) →
  (∃ j s, j ∈ unusedViews ∧ vs !! j = Some s ∧ value s ≠ displaying) →
  ∃ i, first_unclaimed (λ s, value s ≠ displaying) vs unusedViews i ∧
       find_space vs unusedViews u = Some i.
Proof.
  intros Hno (j & s & Hj & Hs & Hd). rewrite find_space_no_holder by done.
  destruct (find (λ i s, has unusedViews i && negb (matches_displaying s)) vs)
    as [i|] eqn:Hf.
  - exists i. split; [|done].
    apply find_Some in Hf as [(s' & Hs' & [Hh Hq]%andb_true_iff) Hmin].
    split; [by apply has_true|]. split.
    + exists s'. split; [done|]. unfold matches_displaying in Hq.
      by apply negb_true_iff, bool_decide_eq_false in Hq.
    + intros k sk Hk Hin Hsk Hdk.
      pose proof (Hmin k sk Hk Hsk) as Hc. apply andb_false_iff in Hc as [Hc|Hc].
      * apply (proj2 (has_true _ _)) in Hin. congruence.
      * unfold matches_displaying in Hc.
        by apply negb_false_iff, bool_decide_eq_true in Hc.
  - pose proof (proj1 (find_None _ _) Hf j s Hs) as Hc.
    apply andb_false_iff in Hc as [Hc|Hc].
    + apply (proj2 (has_true _ _)) in Hj. congruence.
    + unfold matches_displaying in Hc.
      by apply negb_false_iff, bool_decide_eq_true in Hc.
Qed.

Lemma find_space_no_candidate vs unusedViews u :
  (∀ j s, j ∈ unusedViews → vs !! j = Some s → url (context s) ≠ Some u) →
  (∀ j s, j ∈ unusedViews → vs !! j = Some s → value s = displaying) →
  find_space vs unusedViews u = None.
Proof.
  intros Hno Hall. rewrite find_space_no_holder by done.
  apply find_None. intros j s Hs. apply andb_false_iff.
  destruct (has unusedViews j) eqn:Hj; [|by left]. right.
  apply has_true in Hj. unfold matches_displaying.
  apply negb_false_iff, bool_decide_eq_true. by eapply Hall.
Qed.

(** The region processed in the state [st] of the loop, once its view [i]
    is found: the [DISPLAY] goes to [i], which leaves the unclaimed set, and
    it is the [DISPLAY] of the pass for that region. *)
Lemma region_gets before box after win st u i :
  truthy (box_url box) = Some u →
  place_boxes before (win, all_views win) = Normal st →
  find_space (views st.1) st.2 u = Some i →
  place_boxes (before ++ [box]) (win, all_views win)
    = Normal (send i (DISPLAY (box_pos box) u) st.1, delete i st.2) ∧
  List.filter is_display
    (issued win (outcome (setViews (before ++ box :: after) win)))
    !! length (region_urls before)
    = Some (i, DISPLAY (box_pos box) u).
Proof.
  intros Hu Hbefore Hfs.
  assert (∀ rest, place_boxes (before ++ box :: rest) (win, all_views win)
                  = place_boxes rest (send i (DISPLAY (box_pos box) u) st.1,
                                      delete i st.2)) as Hpb.
  { intros rest. rewrite place_boxes_app, Hbefore. simpl.
    unfold place_box. by rewrite Hu, Hfs. }
  split; [apply (Hpb [])|].
  destruct (place_boxes_issue before win (all_views win)) as (cB & HB & HdB & HlB).
  rewrite Hbefore in HB, HlB. simpl in HB. specialize (HlB eq_refl).
  destruct (setViews_outcome (before ++ box :: after) win) as (tail & Hout & Htail).
  rewrite Hpb in Hout.
  destruct (place_boxes_issue after (send i (DISPLAY (box_pos box) u) st.1)
              (delete i st.2)) as (cA & HA & HdA & _).
  assert (outcome (setViews (before ++ box :: after) win)
          = issue (cB ++ (i, DISPLAY (box_pos box) u) :: cA ++ tail) win) as ->.
  { rewrite Hout, HA, HB, issue_app, issue_cons, issue_app. done. }
  rewrite issued_issue, List.filter_app. simpl. rewrite List.filter_app.
  rewrite HdB, HdA, Htail, <- HlB. by apply list_lookup_middle.
Qed.

(** C1. A region with a url that a pass comes to process is given, when
    some unclaimed view holds its url, the first such view of the pool
    (whatever the state of that view); when none holds it, the first
    unclaimed view that is not [displaying]; and when there is no such view
    either, the pass throws at that region. The view so chosen leaves the
    unclaimed set and is sent the [DISPLAY] of the pass for the region. *)
Theorem same_url_preferred before box after win st u :
  truthy (box_url box) = Some u →
  place_boxes before (win, all_views win) = Normal st →
  ((∃ j s, j ∈ st.2 ∧ views st.1 !! j = Some s ∧ url (context s) = Some u) →
   ∃ i, first_unclaimed (λ s, url (context s) = Some u) (views st.1) st.2 i ∧
        place_boxes (before ++ [box]) (win, all_views win)
          = Normal (send i (DISPLAY (box_pos box) u) st.1, delete i st.2) ∧
        List.filter is_display
          (issued win (outcome (setViews (before ++ box :: after) win)))
          !! length (region_urls before)
          = Some (i, DISPLAY (box_pos box) u)) ∧
  ((∀ j s, j ∈ st.2 → views st.1 !! j = Some s → url (context s) ≠ Some u) →
   (∃ j s, j ∈ st.2 ∧ views st.1 !! j = Some s ∧ value s ≠ displaying) →
   ∃ i, first_unclaimed (λ s, value s ≠ displaying) (views st.1) st.2 i ∧
        place_boxes (before ++ [box]) (win, all_views win)
          = Normal (send i (DISPLAY (box_pos box) u) st.1, delete i st.2) ∧
        List.filter is_display
          (issued win (outcome (setViews (before ++ box :: after) win)))
          !! length (region_urls before)
          = Some (i, DISPLAY (box_pos box) u)) ∧
  ((∀ j s, j ∈ st.2 → views st.1 !! j = Some s → url (context s) ≠ Some u) →
   (∀ j s, j ∈ st.2 → views st.1 !! j = Some s → value s = displaying) →
   setViews (before ++ box :: after) win = Throw st.1).
Proof.
  intros Hu Hbefore. split; [|split].
  - intros Hholder.
    destruct (find_space_first_holder _ _ _ Hholder) as (i & Hfirst & Hfs).
    exists i. split; [done|]. by apply region_gets.
  - intros Hno Hfree.
    destruct (find_space_first_free _ _ _ Hno Hfree) as (i & Hfirst & Hfs).
    exists i. split; [done|]. by apply region_gets.
  - intros Hno Hall. unfold setViews.
    rewrite place_boxes_app, Hbefore. simpl. unfold place_box.
    rewrite Hu, (find_space_no_candidate _ _ _ Hno Hall). by destruct st.
Qed.

End SchedulerFacts.

(** ** Repeating a pass *)

Lemma match_slot_first snap unclaimed u i :
  match_slot snap unclaimed u = Some i →
  ∀ j e, j ∈ unclaimed → snap !! j = Some e → e.1 = Some u → (i <= j)%nat.
Proof.
  unfold match_slot. intros H j e Hj He Hu.
  assert (has unclaimed j && bool_decide (e.1 = Some u) = true) as Hp.
  { apply andb_true_iff. split; [by apply has_true|by apply bool_decide_eq_true]. }
  destruct (find (λ i e, has unclaimed i && bool_decide (e.1 = Some u)) snap)
    as [k|] eqn:Hf.
  - injection H as ->. apply find_Some in Hf as [_ Hmin].
    destruct (decide (i <= j)%nat) as [|Hgt]; [done|].
    rewrite (Hmin j e) in Hp by (lia || done). done.
  - rewrite (proj1 (find_None _ _) Hf j e He) in Hp. done.
Qed.

Lemma match_slot_by_url snap unclaimed u i e :
  i ∈ unclaimed → snap !! i = Some e → e.1 = Some u →
  (∀ j e', (j < i)%nat → j ∈ unclaimed → snap !! j = Some e' → e'.1 ≠ Some u) →
  match_slot snap unclaimed u = Some i.
Proof.
  intros Hi He Hu Hmin. unfold match_slot.
  assert (find (λ i e, has unclaimed i && bool_decide (e.1 = Some u)) snap = Some i)
    as ->; [|done].
  apply find_Some. split.
  - exists e. split; [done|]. apply andb_true_iff.
    split; [by apply has_true|by apply bool_decide_eq_true].
  - intros j e' Hj He'. apply andb_false_iff.
    destruct (decide (j ∈ unclaimed)) as [Hin|Hout].
    + right. apply bool_decide_eq_false. by eapply Hmin.
    + left. unfold has. by apply bool_decide_eq_false.
Qed.

Lemma match_slot_ext snap0 snap1 unclaimed u :
  length snap1 = length snap0 →
  (∀ j, j ∈ unclaimed → snap1 !! j = snap0 !! j) →
  match_slot snap1 unclaimed u = match_slot snap0 unclaimed u.
Proof.
  intros Hlen Hsame. unfold match_slot.
  assert (∀ (q : option string * StateValue → bool),
            find (λ i e, has unclaimed i && q e) snap1
            = find (λ i e, has unclaimed i && q e) snap0) as Hfind.
  { intros q. apply find_rel; [done|]. intros m a b Ha Hb.
    destruct (has unclaimed m) eqn:Hm; [|done]. apply has_true in Hm.
    rewrite (Hsame m Hm), Hb in Ha. by injection Ha as ->. }
  rewrite (Hfind (λ e, bool_decide (e.1 = Some u))).
  by rewrite (Hfind (λ e, negb (bool_decide (e.2 = displaying)))).
Qed.

Lemma plan_regions_urls_in SPACE_WIDTH SPACE_HEIGHT snap boxes : ∀ unclaimed c,
  c ∈ (plan_regions SPACE_WIDTH SPACE_HEIGHT snap boxes unclaimed).1 →
  ∃ p u, c.2 = DISPLAY p u ∧ u ∈ region_urls boxes.
Proof.
  unfold region_urls.
  induction boxes as [|box boxes IH]; intros unclaimed c; simpl.
  - by intros ?%elem_of_nil.
  - destruct (truthy (box_url box)) as [u|]; [|by apply IH].
    destruct (match_slot snap unclaimed u) as [i|]; simpl.
    2: by intros ?%elem_of_nil.
    intros [->|Hc]%elem_of_cons.
    + exists (box_pos SPACE_WIDTH SPACE_HEIGHT box), u. split; [done|]. left.
    + destruct (IH _ _ Hc) as (p & u' & ? & ?). exists p, u'. split; [done|].
      by right.
Qed.

Section Idempotence.

Variables SPACE_WIDTH SPACE_HEIGHT : Z.
Variable transition : ViewState -> Event -> ViewState.

(** What the second pass needs of the state machine. *)
Hypothesis display_sets_url : ∀ s p u,
  url (context (transition s (DISPLAY p u))) = Some u.
Hypothesis display_twice : ∀ s p u,
  transition (transition s (DISPLAY p u)) (DISPLAY p u)
  = transition s (DISPLAY p u).
Hypothesis clear_twice : ∀ s,
  transition (transition s CLEAR) CLEAR = transition s CLEAR.
Hypothesis clear_keeps_no_new_url : ∀ s u,
  url (context (transition s CLEAR)) = Some u → url (context s) = Some u.

Local Abbreviation issue := (issue transition).
Local Abbreviation plan_regions := (plan_regions SPACE_WIDTH SPACE_HEIGHT).
Local Abbreviation setViews := (setViews SPACE_WIDTH SPACE_HEIGHT transition).

(** The plan made against [snap0] is made again against [snap1] when the
    planned views hold their url in [snap1], a view holding the url of a
    region in [snap1] is the view planned for that url or held the url in
    [snap0] already, and, for a plan that stopped at a region without
    candidate, the views outside the plan are as in [snap0]. *)
Lemma plan_regions_stable snap0 snap1 boxes :
  length snap1 = length snap0 →
  ∀ unclaimed cmds r,
  plan_regions snap0 boxes unclaimed = (cmds, r) →
  NoDup (region_urls boxes) →
  (∀ i p u, (i, DISPLAY p u) ∈ cmds → ∃ e, snap1 !! i = Some e ∧ e.1 = Some u) →
  (∀ j e u, j ∈ unclaimed → u ∈ region_urls boxes →
     snap1 !! j = Some e → e.1 = Some u →
     (∃ p, (j, DISPLAY p u) ∈ cmds) ∨ (∃ e0, snap0 !! j = Some e0 ∧ e0.1 = Some u)) →
  (r = None → ∀ j, j ∈ unclaimed → j ∉ map fst cmds → snap1 !! j = snap0 !! j) →
  plan_regions snap1 boxes unclaimed = (cmds, r).
Proof.
  intros Hlen.
  induction boxes as [|box boxes IH]; intros unclaimed cmds r; simpl; [done|].
  unfold region_urls. simpl. fold (region_urls boxes).
  destruct (truthy (box_url box)) as [u|] eqn:Hu; simpl; [|by apply IH].
  destruct (match_slot snap0 unclaimed u) as [i|] eqn:Hi.
  2: { intros [= <- <-] _ _ _ Hsame.
       rewrite (match_slot_ext snap0 snap1), Hi; [done|done|].
       intros j Hj. apply Hsame; [done|done|]. by intros ?%elem_of_nil. }
  destruct (plan_regions snap0 boxes (delete i unclaimed)) as [cmds' r'] eqn:Hpl.
  simpl. intros [= <- <-] [Hfresh Hnd]%NoDup_cons Hset Hback Hsame.
  assert (∀ j p, (j, DISPLAY p u) ∉ cmds') as Hnotu.
  { intros j p Hin. apply Hfresh.
    pose proof (plan_regions_urls_in SPACE_WIDTH SPACE_HEIGHT snap0 boxes
                  (delete i unclaimed) (j, DISPLAY p u)) as H.
    rewrite Hpl in H. destruct (H Hin) as (p' & u' & [= _ <-] & ?). done. }
  destruct (match_slot_unclaimed _ _ _ _ Hi) as [Hiu _].
  destruct (Hset i _ u ltac:(left)) as (e & He & Heu).
  rewrite (match_slot_by_url snap1 unclaimed u i e); [|done..|].
  - rewrite (IH (delete i unclaimed) cmds' r'); [done|done|done|..].
    + intros j p u' Hin. apply (Hset j p u'). by right.
    + intros j e' u' [Hne Hj]%elem_of_delete Hu' He' Heu'.
      destruct (Hback j e' u' Hj ltac:(by right) He' Heu') as [[p Hp]|?]; [|by right].
      apply elem_of_cons in Hp as [[= -> _ _]|Hp]; [done|]. left. by exists p.
    + intros Hr j [Hne Hj]%elem_of_delete Hout. apply Hsame; [done|done|].
      simpl. by apply not_elem_of_cons.
  - intros j e' Hlt Hj He' Heu'.
    destruct (Hback j e' u Hj ltac:(left) He' Heu') as [[p Hp]|(e0 & He0 & Heu0)].
    + apply elem_of_cons in Hp as [[= -> _]|Hp]; [lia|]. by apply (Hnotu j p).
    + pose proof (match_slot_first _ _ _ _ Hi j e0 Hj He0 Heu0). lia.
Qed.

Lemma map_fst_clear (l : list nat) : map fst (map (λ i, (i, CLEAR)) l) = l.
Proof. induction l as [|i l IH]; simpl; [done|by rewrite IH]. Qed.

Lemma pass_commands_NoDup snap boxes unclaimed rest :
  NoDup unclaimed →
  (plan_regions snap boxes unclaimed).2 = Some rest →
  NoDup (map fst ((plan_regions snap boxes unclaimed).1
                  ++ map (λ i, (i, CLEAR)) rest)).
Proof.
  intros Hnd Hrest. rewrite map_app, map_fst_clear. apply NoDup_app.
  split; [apply plan_regions_NoDup|]. split.
  - intros j Hj Hj'. apply (plan_regions_rest _ _ _ _ _ _ Hrest j) in Hj'. tauto.
  - by eapply plan_regions_rest_NoDup.
Qed.

(** All the commands of a pass: the [DISPLAY]s, then the [CLEAR]s if the
    loop over the regions came to its end. *)
Lemma setViews_commands boxes win :
  ∃ cmds r,
    plan_regions (pool_snapshot win) boxes (all_views win) = (cmds, r) ∧
    let all := cmds ++ match r with
                       | Some rest => map (λ i, (i, CLEAR)) rest
                       | None => []
                       end in
    setViews boxes win
    = match r with
      | Some _ => Normal (issue all win)
      | None => Throw (issue all win)
      end ∧
    NoDup (map fst all) ∧
    (∀ j e, (j, e) ∈ all →
       (j < length (views win))%nat ∧
       ((∃ p u, e = DISPLAY p u ∧ (j, e) ∈ cmds) ∨ e = CLEAR)) ∧
    (∀ rest, r = Some rest → ∀ j, (j < length (views win))%nat → j ∈ map fst all).
Proof.
  destruct (plan_regions (pool_snapshot win) boxes (all_views win))
    as [cmds r] eqn:Hpl.
  exists cmds, r. split; [done|]. simpl.
  assert (∀ c, c ∈ cmds →
            c.1 ∈ all_views win ∧ ∃ p u, c.2 = DISPLAY p u) as Htargets.
  { intros c Hc.
    pose proof (plan_regions_targets SPACE_WIDTH SPACE_HEIGHT (pool_snapshot win)
                  boxes (all_views win) c) as H.
    pose proof (plan_regions_urls_in SPACE_WIDTH SPACE_HEIGHT (pool_snapshot win)
                  boxes (all_views win) c) as H'.
    rewrite Hpl in H, H'. destruct (H Hc) as (? & _ & _).
    destruct (H' Hc) as (p & u & ? & _). split; [done|]. by exists p, u. }
  assert (∀ j, j ∈ all_views win ↔ (j < length (views win))%nat) as Hall.
  { intros j. unfold all_views. rewrite elem_of_seq. lia. }
  split; [|split; [|split]].
  - rewrite setViews_plan, Hpl. simpl. destruct r; [done|]. by rewrite app_nil_r.
  - destruct r as [rest|].
    + pose proof (pass_commands_NoDup (pool_snapshot win) boxes (all_views win)
                    rest (NoDup_seq _ _)) as H.
      rewrite Hpl in H. by apply H.
    + rewrite app_nil_r.
      pose proof (plan_regions_NoDup SPACE_WIDTH SPACE_HEIGHT (pool_snapshot win)
                    boxes (all_views win)) as H.
      by rewrite Hpl in H.
  - intros j e [Hc|Hc]%elem_of_app.
    + destruct (Htargets _ Hc) as (Hj & p & u & He). simpl in *. subst e.
      split; [by apply Hall|]. left. by exists p, u.
    + destruct r as [rest|]; [|by apply elem_of_nil in Hc].
      apply list_elem_of_fmap in Hc as (j' & [= -> ->] & Hj).
      split; [|by right]. apply Hall.
      pose proof (plan_regions_rest SPACE_WIDTH SPACE_HEIGHT (pool_snapshot win)
                    boxes (all_views win) rest) as H.
      rewrite Hpl in H. by apply (H eq_refl j').
  - intros rest -> j Hj. rewrite map_app, map_fst_clear, elem_of_app.
    destruct (decide (j ∈ map fst cmds)) as [|Hout]; [by left|]. right.
    pose proof (plan_regions_rest SPACE_WIDTH SPACE_HEIGHT (pool_snapshot win)
                  boxes (all_views win) rest) as H.
    rewrite Hpl in H. apply (H eq_refl j). split; [by apply Hall|done].
Qed.

Lemma setViews_twice boxes win :
  NoDup (region_urls boxes) →
  is_normal (setViews boxes (outcome (setViews boxes win)))
    = is_normal (setViews boxes win) ∧
  views (outcome (setViews boxes (outcome (setViews boxes win))))
    = views (outcome (setViews boxes win)) ∧
  issued (outcome (setViews boxes win))
         (outcome (setViews boxes (outcome (setViews boxes win))))
    = issued win (outcome (setViews boxes win)).
Proof.
  intros Hurls.
  destruct (setViews_commands boxes win)
    as (cmds & r & Hpl & Hset & Hnd & Hall & Hcover).
  simpl in Hset, Hnd, Hall, Hcover.
  set (all := cmds ++ match r with
                      | Some rest => map (λ i, (i, CLEAR)) rest
                      | None => []
                      end) in *.
  set (win1 := issue all win).
  assert (outcome (setViews boxes win) = win1) as Hout
    by (rewrite Hset; by destruct r).
  rewrite Hout.
  assert (length (views win1) = length (views win)) as Hlen
    by apply length_views_issue.
  assert (∀ j e, (j, e) ∈ all →
            views win1 !! j = (λ s, transition s e) <$> views win !! j) as Hone.
  { intros j e Hin. by apply views_issue_once. }
  assert (plan_regions (pool_snapshot win1) boxes (all_views win1) = (cmds, r))
    as Hpl1.
  { unfold all_views at 1. rewrite Hlen. fold (all_views win).
    apply (plan_regions_stable (pool_snapshot win)); [|done|done|..].
    - unfold pool_snapshot. by rewrite !length_map.
    - intros i p u Hin. unfold pool_snapshot. rewrite list_lookup_fmap.
      assert ((i, DISPLAY p u) ∈ all) as Hin' by (apply elem_of_app; by left).
      rewrite (Hone _ _ Hin'). destruct (Hall _ _ Hin') as [Hlt _].
      destruct (lookup_lt_is_Some_2 (views win) i Hlt) as [s Hs].
      rewrite Hs. simpl. eexists. split; [done|]. simpl. apply display_sets_url.
    - intros j e u Hj _. unfold pool_snapshot. rewrite !list_lookup_fmap.
      destruct (decide (j ∈ map fst all)) as [Hin|Hnotin].
      + apply list_elem_of_fmap in Hin as ([j' ev] & -> & Hin). simpl.
        rewrite (Hone _ _ Hin). destruct (Hall _ _ Hin) as [Hlt Hev].
        destruct (lookup_lt_is_Some_2 (views win) j' Hlt) as [s Hs].
        rewrite Hs. simpl. intros [= <-]. simpl.
        destruct Hev as [(p & u' & -> & Hc)| ->].
        * rewrite display_sets_url. intros [= ->]. left. by exists p.
        * intros Hu. right. eexists. split; [done|]. simpl.
          by apply clear_keeps_no_new_url.
      + unfold win1. rewrite views_issue_other by done.
        destruct (views win !! j) as [s|]; simpl; [|done].
        intros [= <-] Hu. right. by eexists.
    - intros Hr j _ Hj. unfold pool_snapshot. rewrite !list_lookup_fmap.
      unfold win1. rewrite views_issue_other; [done|].
      unfold all. by rewrite Hr, app_nil_r. }
  assert (setViews boxes win1
          = match r with
            | Some _ => Normal (issue all win1)
            | None => Throw (issue all win1)
            end) as Hset1.
  { rewrite setViews_plan, Hpl1. simpl. destruct r; [done|].
    unfold all. by rewrite !app_nil_r. }
  rewrite Hset1, Hset.
  assert (outcome match r with
                  | Some _ => Normal (issue all win1)
                  | None => Throw (issue all win1)
                  end = issue all win1) as -> by (by destruct r).
  split; [by destruct r|].
  split; [|rewrite issued_issue; unfold win1; by rewrite issued_issue].
  apply list_eq. intros j.
  destruct (decide (j ∈ map fst all)) as [Hin|Hnotin].
  - apply list_elem_of_fmap in Hin as ([j' e] & -> & Hin). simpl.
    rewrite (views_issue_once transition all win1 j' e Hnd Hin).
    rewrite (Hone _ _ Hin). destruct (views win !! j') as [s|]; simpl; [|done].
    f_equal. destruct (Hall _ _ Hin) as [_ [(p & u & -> & _)| ->]].
    + apply display_twice.
    + apply clear_twice.
  - by rewrite views_issue_other.
Qed.

End Idempotence.

(** ** When the pass comes to its end *)

Lemma match_slot_free snap unclaimed u j e :
  j ∈ unclaimed → snap !! j = Some e → e.2 ≠ displaying →
  is_Some (match_slot snap unclaimed u).
Proof.
  intros Hj He Hfree. unfold match_slot.
  destruct (find (λ i e, has unclaimed i && bool_decide (e.1 = Some u)) snap);
    [by eexists|].
  destruct (find (λ i e, has unclaimed i && negb (bool_decide (e.2 = displaying))) snap)
    eqn:Hf; [by eexists|].
  pose proof (proj1 (find_None _ _) Hf j e He) as Hc.
  apply andb_false_iff in Hc as [Hc|Hc].
  - apply (proj2 (has_true _ _)) in Hj. congruence.
  - apply negb_false_iff, bool_decide_eq_true in Hc. done.
Qed.

Lemma delete_absent i l : i ∉ l → delete i l = l.
Proof.
  unfold delete. induction l as [|a l IH]; intros Hi; [done|].
  apply not_elem_of_cons in Hi as [Hne Hi].
  rewrite filter_cons_True by done. by rewrite IH.
Qed.

Lemma length_filter_delete (f : nat → bool) i l :
  NoDup l →
  (length (List.filter f l) <= S (length (List.filter f (delete i l))))%nat.
Proof.
  induction l as [|a l IH]; intros Hnd; [simpl; lia|].
  apply NoDup_cons in Hnd as [Ha Hnd]. specialize (IH Hnd).
  destruct (decide (a = i)) as [->|Hne].
  - unfold delete. rewrite filter_cons_False by (intros H; by apply H).
    fold (delete i l). rewrite delete_absent by done.
    simpl. destruct (f i); simpl; lia.
  - unfold delete. rewrite filter_cons_True by done. fold (delete i l).
    simpl. destruct (f a); simpl; lia.
Qed.

Lemma region_urls_cons box boxes :
  region_urls (box :: boxes) =
  match truthy (box_url box) with
  | Some u => u :: region_urls boxes
  | None => region_urls boxes
  end.
Proof. unfold region_urls. simpl. by destruct (truthy (box_url box)). Qed.

Lemma plan_regions_enough SPACE_WIDTH SPACE_HEIGHT snap (f : nat → bool) :
  (∀ j, f j = true → ∃ e, snap !! j = Some e ∧ e.2 ≠ displaying) →
  ∀ boxes unclaimed,
  NoDup unclaimed →
  (length (region_urls boxes) <= length (List.filter f unclaimed))%nat →
  is_Some (plan_regions SPACE_WIDTH SPACE_HEIGHT snap boxes unclaimed).2.
Proof.
  intros Hf.
  induction boxes as [|box boxes IH]; intros unclaimed Hnd Hlen.
  - by eexists.
  - rewrite region_urls_cons in Hlen. simpl.
    destruct (truthy (box_url box)) as [u|]; [|by apply IH].
    destruct (List.filter f unclaimed) as [|j free] eqn:Hfree; [simpl in Hlen; lia|].
    assert (In j (List.filter f unclaimed)) as Hj by (rewrite Hfree; by left).
    apply List.filter_In in Hj as [Hj Hfj]. apply list_elem_of_In in Hj.
    destruct (Hf j Hfj) as (e & He & Hnd').
    destruct (match_slot_free snap unclaimed u j e Hj He Hnd') as [i Hi].
    rewrite Hi. simpl. apply IH; [by apply NoDup_delete|].
    pose proof (length_filter_delete f i unclaimed Hnd) as Hdel.
    rewrite Hfree in Hdel. simpl in Hdel, Hlen. lia.
Qed.

(** A pass comes to its end when the views that are not [displaying] are at
    least as many as the regions with a url. *)
Lemma setViews_completes SPACE_WIDTH SPACE_HEIGHT transition boxes win :
  (length (region_urls boxes) <= length (free_views win))%nat →
  is_normal (setViews SPACE_WIDTH SPACE_HEIGHT transition boxes win) = true.
Proof.
  intros Hlen. rewrite setViews_plan.
  destruct (plan_regions_enough SPACE_WIDTH SPACE_HEIGHT (pool_snapshot win)
              (free_view (views win))) with (boxes := boxes)
              (unclaimed := all_views win) as [rest ->]; [|apply NoDup_seq|done|done].
  intros j Hj. unfold free_view in Hj. unfold pool_snapshot.
  rewrite list_lookup_fmap. destruct (views win !! j) as [s|]; [|done].
  simpl. eexists. split; [done|]. simpl.
  unfold matches_displaying in Hj. apply negb_true_iff in Hj.
  by apply bool_decide_eq_false in Hj.
Qed.

(** ** The view preload script *)

(** C9. During one load the preload script sends [view-info] at most once,
    [view-loaded] at most once and [view-error] at most once. When [main]
    returns, [view-loaded] was sent exactly once, as the last message, and
    no [view-error]; when the promise of [main] rejects, the [catch] handler
    sends the one [view-error] and no [view-loaded] was sent; while [main]
    waits, neither was sent. *)
Theorem preload_signals_at_most_once pg :
  (count_msg is_view_info (preload pg) <= 1)%nat ∧
  (count_msg is_view_loaded (preload pg) <= 1)%nat ∧
  (count_msg is_view_error (preload pg) <= 1)%nat ∧
  match (main pg).2 with
  | Fulfilled _ =>
      count_msg is_view_loaded (preload pg) = 1%nat ∧
      count_msg is_view_error (preload pg) = 0%nat ∧
      last (preload pg) = Some view_loaded
  | Rejected =>
      count_msg is_view_loaded (preload pg) = 0%nat ∧
      count_msg is_view_error (preload pg) = 1%nat ∧
      last (preload pg) = Some view_error
  | Pending =>
      count_msg is_view_loaded (preload pg) = 0%nat ∧
      count_msg is_view_error (preload pg) = 0%nat
  end.
Proof.
  destruct pg as [init loaded found attach width play title].
  destruct init as [[[]|]| |], loaded, found, attach, width, play;
    vm_compute; repeat split; lia.
Qed.

(** ** The state machine of the design document *)

Lemma viewStateMachine_display_url s p u :
  url (context (viewStateMachine s (DISPLAY p u))) = Some u.
Proof.
  simpl. destruct (value s); simpl; try done.
  destruct (url_is u s) eqn:Hu; simpl; [|done].
  unfold url_is in Hu. by apply bool_decide_eq_true in Hu.
Qed.

Lemma viewStateMachine_display_twice s p u :
  viewStateMachine (viewStateMachine s (DISPLAY p u)) (DISPLAY p u)
  = viewStateMachine s (DISPLAY p u).
Proof.
  simpl. destruct (value s) eqn:Hv; simpl; try done.
  destruct (url_is u s) eqn:Hu; simpl; [|done].
  unfold url_is in *. simpl. by rewrite Hu.
Qed.

Lemma viewStateMachine_clear_twice s :
  viewStateMachine (viewStateMachine s CLEAR) CLEAR = viewStateMachine s CLEAR.
Proof. simpl. destruct (value s) eqn:Hv; simpl; by rewrite ?Hv. Qed.

Lemma viewStateMachine_clear_url s u :
  url (context (viewStateMachine s CLEAR)) = Some u → url (context s) = Some u.
Proof. simpl. by destruct (value s). Qed.

(** C8, as the code has it. For a layout whose regions have pairwise
    different urls, a pass can be repeated without effect: the second pass
    ends as the first did, sends the same commands to the same views, and
    leaves every view in the state (state value, url, position, metadata,
    mute flag) the first pass left it in. *)
Theorem setLayout_idempotent_distinct_urls SPACE_WIDTH SPACE_HEIGHT boxes win :
  NoDup (region_urls boxes) →
  is_normal (setViews SPACE_WIDTH SPACE_HEIGHT viewStateMachine boxes
               (outcome (setViews SPACE_WIDTH SPACE_HEIGHT viewStateMachine boxes win)))
    = is_normal (setViews SPACE_WIDTH SPACE_HEIGHT viewStateMachine boxes win) ∧
  views (outcome (setViews SPACE_WIDTH SPACE_HEIGHT viewStateMachine boxes
           (outcome (setViews SPACE_WIDTH SPACE_HEIGHT viewStateMachine boxes win))))
    = views (outcome (setViews SPACE_WIDTH SPACE_HEIGHT viewStateMachine boxes win)) ∧
  issued (outcome (setViews SPACE_WIDTH SPACE_HEIGHT viewStateMachine boxes win))
         (outcome (setViews SPACE_WIDTH SPACE_HEIGHT viewStateMachine boxes
            (outcome (setViews SPACE_WIDTH SPACE_HEIGHT viewStateMachine boxes win))))
    = issued win (outcome (setViews SPACE_WIDTH SPACE_HEIGHT viewStateMachine boxes win)).
Proof.
  apply setViews_twice.
  - apply viewStateMachine_display_url.
  - apply viewStateMachine_display_twice.
  - apply viewStateMachine_clear_twice.
  - apply viewStateMachine_clear_url.
Qed.

(** C8 as stated fails: with the url ["a"] in two regions, the second pass
    over [twin_layout] gives each of the first two views the position of the
    other region. *)
Lemma setLayout_twice_swaps_positions :
  let pass := setViews 640 360 viewStateMachine twin_layout in
  is_normal (pass twin_wall) = true ∧
  is_normal (pass (outcome (pass twin_wall))) = true ∧
  take 2 (map (λ s, pos (context s)) (views (outcome (pass twin_wall))))
    = [Some (cell_pos 2 2); Some (cell_pos 0 0)] ∧
  take 2 (map (λ s, pos (context s))
            (views (outcome (pass (outcome (pass twin_wall))))))
    = [Some (cell_pos 0 0); Some (cell_pos 2 2)] ∧
  views (outcome (pass (outcome (pass twin_wall)))) ≠ views (outcome (pass twin_wall)).
Proof.
  vm_compute. repeat split. discriminate.
Qed.

(** C2: the pool has ten views and the layout nine regions, and still the
    search for the region with url ["y"] finds no candidate: whatever the
    state machine, [setViews] throws after eight [DISPLAY]s, and sends no
    [CLEAR]. *)
Theorem no_candidate_within_capacity transition :
  (length (region_urls next_layout) <= length (views full_wall))%nat ∧
  is_normal (setViews 640 360 transition next_layout full_wall) = false ∧
  map fst (issued full_wall
             (outcome (setViews 640 360 transition next_layout full_wall)))
    = [0; 1; 2; 3; 4; 5; 6; 9]%nat.
Proof.
  split; [vm_compute; lia|]. rewrite setViews_plan.
  assert (plan_regions 640 360 (pool_snapshot full_wall) next_layout
            (all_views full_wall)
          = ([(0, DISPLAY (cell_pos 0 0) "a"); (1, DISPLAY (cell_pos 1 0) "b");
              (2, DISPLAY (cell_pos 2 0) "c"); (3, DISPLAY (cell_pos 0 1) "d");
              (4, DISPLAY (cell_pos 1 1) "e"); (5, DISPLAY (cell_pos 2 1) "f");
              (6, DISPLAY (cell_pos 0 2) "g"); (9, DISPLAY (cell_pos 1 2) "x")]%nat,
             None)) as -> by (vm_compute; reflexivity).
  split; [reflexivity|]. cbn [fst snd outcome]. by rewrite issued_issue.
Qed.

(** C4 as stated fails: the focus index [-1] lies outside every grid, and
    [setListeningView (-1)] is not rejected: it sends [MUTE] to the two
    [displaying] views, whose mute flags, with the state machine of the
    design document, change from [false] to [true]. *)
Lemma out_of_grid_focus_changes_mute :
  (∀ GRID_COUNT, ¬ in_grid GRID_COUNT (-1)) ∧
  (∀ transition,
     setListeningView transition (-1) small_wall
     = Normal (issue transition [(1%nat, MUTE); (2%nat, MUTE)] small_wall)) ∧
  map muted (views small_wall) = replicate 10 false ∧
  map muted (views (outcome (setListeningView viewStateMachine (-1) small_wall)))
    = [false; true; true] ++ replicate 7 false.
Proof.
  split; [unfold in_grid; lia|]. split; [|vm_compute; by split].
  intros transition. reflexivity.
Qed.

(** C10 as stated fails: on [started_wall] the first cell of [late_layout]
    has no url; with any url it would be given the first view; that view does
    not stay unclaimed to be cleared: the pass comes to its end, the region
    with url ["a"] takes it, and [CLEAR] goes to the nine other views
    only. *)
Lemma empty_url_view_taken_by_later_region :
  (∀ u, u ≠ EmptyString →
        place_box 640 360 viewStateMachine (mkBox (Some u) 0 0 1 1 [0])
          (started_wall, all_views started_wall)
        = Normal (send viewStateMachine 0 (DISPLAY (cell_pos 0 0) u) started_wall,
                  seq 1 9)) ∧
  setViews 640 360 viewStateMachine late_layout started_wall
  = Normal (issue viewStateMachine
              ((0%nat, DISPLAY (cell_pos 1 0) "a")
               :: map (λ i, (i, CLEAR)) (seq 1 9)) started_wall) ∧
  ((0%nat, CLEAR)
     ∉ issued started_wall
         (outcome (setViews 640 360 viewStateMachine late_layout started_wall))).
Proof.
  split; [|split].
  - intros u Hu. unfold place_box. simpl.
    rewrite bool_decide_eq_false_2 by done. reflexivity.
  - reflexivity.
  - apply (bool_decide_unpack _). vm_compute. exact I.
Qed.

(** C5: at [full_wall] and [next_layout] the pass throws at the region with
    url ["y"] (the defect of C2): the views 7 and 8 are claimed by no region
    and no [CLEAR] is sent at all, whatever the state machine. *)
Theorem unclaimed_views_left_uncleared transition :
  is_normal (setViews 640 360 transition next_layout full_wall) = false ∧
  claimed (issued full_wall
             (outcome (setViews 640 360 transition next_layout full_wall)))
    = [0; 1; 2; 3; 4; 5; 6; 9]%nat ∧
  ∀ i, (i, CLEAR)
         ∉ issued full_wall
             (outcome (setViews 640 360 transition next_layout full_wall)).
Proof.
  rewrite setViews_plan.
  assert (plan_regions 640 360 (pool_snapshot full_wall) next_layout
            (all_views full_wall)
          = ([(0, DISPLAY (cell_pos 0 0) "a"); (1, DISPLAY (cell_pos 1 0) "b");
              (2, DISPLAY (cell_pos 2 0) "c"); (3, DISPLAY (cell_pos 0 1) "d");
              (4, DISPLAY (cell_pos 1 1) "e"); (5, DISPLAY (cell_pos 2 1) "f");
              (6, DISPLAY (cell_pos 0 2) "g"); (9, DISPLAY (cell_pos 1 2) "x")]%nat,
             None)) as -> by (vm_compute; reflexivity).
  split; [reflexivity|]. cbn [fst snd outcome]. rewrite issued_issue.
  split; [reflexivity|]. intros i Hin.
  repeat (apply elem_of_cons in Hin as [Hin|Hin]; [discriminate|]).
  by apply elem_of_nil in Hin.
Qed.

(** ** The theorems at sample walls *)

(** On [small_wall] the first region of [plain_layout], with url ["a"], is
    given the first view that holds ["a"]; on [started_wall], where no view
    holds it, the first view that is not [displaying]. *)
Lemma same_url_preferred_witness :
  truthy (box_url (cell_box "a" 2 2)) = Some "a" ∧
  (∃ i, first_unclaimed (λ s, url (context s) = Some "a")
          (views small_wall) (all_views small_wall) i ∧
        List.filter is_display
          (issued small_wall
             (outcome (setViews 640 360 viewStateMachine plain_layout small_wall)))
          !! 0%nat
        = Some (i, DISPLAY (cell_pos 2 2) "a")) ∧
  (∃ i, first_unclaimed (λ s, value s ≠ displaying)
          (views started_wall) (all_views started_wall) i ∧
        List.filter is_display
          (issued started_wall
             (outcome (setViews 640 360 viewStateMachine plain_layout started_wall)))
          !! 0%nat
        = Some (i, DISPLAY (cell_pos 2 2) "a")).
Proof.
  split; [reflexivity|]. split.
  - destruct (proj1 (same_url_preferred 640 360 viewStateMachine []
                       (cell_box "a" 2 2)
                       [mkBox None 1 1 1 1 [4]; cell_box "c" 0 1]
                       small_wall (small_wall, all_views small_wall) "a"
                       eq_refl eq_refl))
      as (i & Hfirst & _ & Hsent).
    + exists 2%nat, (shown "a" 0 0). split; [|split; reflexivity].
      apply elem_of_seq. simpl. lia.
    + exists i. split; [exact Hfirst|exact Hsent].
  - destruct (proj1 (proj2 (same_url_preferred 640 360 viewStateMachine []
                       (cell_box "a" 2 2)
                       [mkBox None 1 1 1 1 [4]; cell_box "c" 0 1]
                       started_wall (started_wall, all_views started_wall) "a"
                       eq_refl eq_refl)))
      as (i & Hfirst & _ & Hsent).
    + intros j s _ Hs. apply list_elem_of_lookup_2 in Hs. simpl in Hs.
      repeat (apply elem_of_cons in Hs as [->|Hs]); try discriminate.
      by apply elem_of_nil in Hs.
    + exists 0%nat, empty_view. split; [|split; [reflexivity|discriminate]].
      apply elem_of_seq. simpl. lia.
    + exists i. split; [exact Hfirst|exact Hsent].
Defined.

(** [plain_layout] and the layout without its empty cell end alike, and the
    second view of [small_wall], which no region claims, is cleared. *)
Lemma empty_url_region_skipped_witness :
  truthy (box_url (mkBox None 1 1 1 1 [4])) = None ∧
  setViews 640 360 viewStateMachine plain_layout small_wall
  = setViews 640 360 viewStateMachine [cell_box "a" 2 2; cell_box "c" 0 1] small_wall ∧
  (1%nat, CLEAR)
    ∈ issued small_wall
        (outcome (setViews 640 360 viewStateMachine plain_layout small_wall)).
Proof.
  split; [reflexivity|].
  destruct (empty_url_region_skipped 640 360 viewStateMachine
              (mkBox None 1 1 1 1 [4]) eq_refl) as (_ & Hsame & Hclear).
  split.
  - exact (Hsame [cell_box "a" 2 2] [cell_box "c" 0 1] small_wall).
  - apply (Hclear [cell_box "a" 2 2] [cell_box "c" 0 1] small_wall _ 1%nat eq_refl).
    + simpl. lia.
    + apply (bool_decide_unpack _). vm_compute. exact I.
Defined.

(** The pass of [plain_layout] over [small_wall] comes to its end and claims
    distinct views. *)
Lemma claimed_views_distinct_witness :
  setViews 640 360 viewStateMachine plain_layout small_wall
  = Normal (outcome (setViews 640 360 viewStateMachine plain_layout small_wall)) ∧
  NoDup (claimed (issued small_wall
           (outcome (setViews 640 360 viewStateMachine plain_layout small_wall)))).
Proof.
  split; [reflexivity|].
  refine (proj1 (claimed_views_distinct 640 360 viewStateMachine plain_layout
                   small_wall _ _)).
  reflexivity.
Defined.

(** In that pass the second view, which no region claims, is sent [CLEAR]. *)
Lemma unclaimed_views_cleared_witness :
  setViews 640 360 viewStateMachine plain_layout small_wall
  = Normal (outcome (setViews 640 360 viewStateMachine plain_layout small_wall)) ∧
  (1%nat, CLEAR) ∈ issued small_wall
    (outcome (setViews 640 360 viewStateMachine plain_layout small_wall)).
Proof.
  split; [reflexivity|].
  destruct (proj2 (unclaimed_views_cleared 640 360 viewStateMachine plain_layout
                     small_wall) _ eq_refl)
    as (w & unusedViews & _ & Hun & Hclear).
  apply Hclear, Hun. split; [simpl; lia|].
  apply (bool_decide_unpack _). vm_compute. exact I.
Defined.

(** With the focus on cell 0, the view showing cell 0 is unmuted and the
    view showing cell 1 is muted. *)
Lemma listening_focus_routing_witness :
  (∀ s, s ∈ views small_wall → value s = displaying → is_Some (pos (context s))) ∧
  ∃ win', setListeningView viewStateMachine 0 small_wall = Normal win' ∧
          issued small_wall win' = [(1%nat, MUTE); (2%nat, UNMUTE)].
Proof.
  assert (∀ s, s ∈ views small_wall → value s = displaying →
               is_Some (pos (context s))) as Hpos.
  { intros s Hs Hd. simpl in Hs.
    repeat (apply elem_of_cons in Hs as [->|Hs]); try discriminate;
      try (eexists; reflexivity). by apply elem_of_nil in Hs. }
  split; [exact Hpos|].
  destruct (listening_focus_routing viewStateMachine 0 small_wall Hpos)
    as (win' & Hset & Hiss & _).
  exists win'. split; [exact Hset|]. rewrite Hiss. reflexivity.
Defined.

(** Cell 9 is outside the 3 x 3 grid: the [displaying] views are muted. *)
Lemma out_of_grid_focus_mutes_all_witness :
  ¬ in_grid 3 9 ∧
  ∃ win', setListeningView viewStateMachine 9 small_wall = Normal win' ∧
          ((1%nat, MUTE) ∈ issued small_wall win').
Proof.
  assert (¬ in_grid 3 9) as Hout by (unfold in_grid; lia).
  split; [exact Hout|].
  assert (∀ s, s ∈ views small_wall → value s = displaying →
               ∃ p, pos (context s) = Some p ∧
                    ∀ k, k ∈ pos_spaces p → in_grid 3 k) as Hgrid.
  { intros s Hs Hd. simpl in Hs.
    repeat (apply elem_of_cons in Hs as [->|Hs]); try discriminate.
    - eexists. split; [reflexivity|]. intros k Hk. simpl in Hk.
      apply list_elem_of_singleton in Hk as ->. unfold in_grid. lia.
    - eexists. split; [reflexivity|]. intros k Hk. simpl in Hk.
      apply list_elem_of_singleton in Hk as ->. unfold in_grid. lia.
    - by apply elem_of_nil in Hs. }
  destruct (out_of_grid_focus_mutes_all viewStateMachine 3 9 small_wall Hgrid Hout)
    as (win' & Hset & Hiss).
  exists win'. split; [exact Hset|]. apply Hiss. split; [reflexivity|].
  eexists. split; reflexivity.
Defined.

(** The urls of [plain_layout] are distinct: a second pass over [small_wall]
    changes no view. *)
Lemma setLayout_idempotent_distinct_urls_witness :
  NoDup (region_urls plain_layout) ∧
  views (outcome (setViews 640 360 viewStateMachine plain_layout
           (outcome (setViews 640 360 viewStateMachine plain_layout small_wall))))
  = views (outcome (setViews 640 360 viewStateMachine plain_layout small_wall)).
Proof.
  assert (NoDup (region_urls plain_layout)) as Hnd.
  { apply (bool_decide_unpack _). vm_compute. exact I. }
  split; [exact Hnd|].
  exact (proj1 (proj2 (setLayout_idempotent_distinct_urls 640 360 plain_layout
                         small_wall Hnd))).
Defined.

(** * Further properties of the scheduler *)

Section SchedulerMore.

Variables SPACE_WIDTH SPACE_HEIGHT : Z.
Variable transition : ViewState -> Event -> ViewState.

Local Arguments issue : simpl never.

Local Abbreviation issue := (issue transition).
Local Abbreviation box_pos := (box_pos SPACE_WIDTH SPACE_HEIGHT).
Local Abbreviation plan_regions := (plan_regions SPACE_WIDTH SPACE_HEIGHT).
Local Abbreviation setViews := (setViews SPACE_WIDTH SPACE_HEIGHT transition).
Local Abbreviation setListeningView := (setListeningView transition).
Local Abbreviation listen_from := (listen_from transition).

(** The commands of a pass, whatever its outcome. *)
Lemma issued_setViews boxes win :
  issued win (outcome (setViews boxes win)) =
  (plan_regions (pool_snapshot win) boxes (all_views win)).1
  ++ match (plan_regions (pool_snapshot win) boxes (all_views win)).2 with
     | Some rest => map (λ i, (i, CLEAR)) rest
     | None => []
     end.
Proof.
  rewrite setViews_plan.
  destruct (plan_regions (pool_snapshot win) boxes (all_views win)).2;
    cbn [outcome]; rewrite issued_issue; [done|by rewrite app_nil_r].
Qed.

Lemma length_views_setViews boxes win :
  length (views (outcome (setViews boxes win))) = length (views win).
Proof.
  rewrite setViews_plan.
  destruct (plan_regions (pool_snapshot win) boxes (all_views win)).2;
    cbn [outcome]; apply length_views_issue.
Qed.

(** X1. A pass that comes to its end sends exactly one command to every
    view of the pool ([DISPLAY] or [CLEAR]), and the pool keeps its size. *)
Theorem setViews_one_command_per_view boxes win win' :
  setViews boxes win = Normal win' →
  map fst (issued win win') ≡ₚ all_views win ∧
  length (views win') = length (views win).
Proof.
  intros Hset.
  assert (win' = outcome (setViews boxes win)) as -> by (by rewrite Hset).
  split; [|apply length_views_setViews].
  destruct (setViews_commands SPACE_WIDTH SPACE_HEIGHT transition boxes win)
    as (cmds & r & Hpl & Hs & Hnd & Hall & Hcover).
  cbn zeta in Hs, Hnd, Hall, Hcover.
  rewrite issued_setViews, Hpl. cbn [fst snd].
  destruct r as [rest|]; [|by rewrite Hs in Hset].
  apply NoDup_Permutation; [done|apply NoDup_seq|].
  intros j. split.
  - intros ([j' e] & -> & Hin)%list_elem_of_fmap.
    destruct (Hall _ _ Hin) as [Hlt _]. unfold all_views. apply elem_of_seq.
    simpl. lia.
  - intros Hj. apply (Hcover rest eq_refl). unfold all_views in Hj.
    apply elem_of_seq in Hj. lia.
Qed.

Lemma plan_regions_no_url snap boxes unclaimed :
  region_urls boxes = [] →
  plan_regions snap boxes unclaimed = ([], Some unclaimed).
Proof.
  induction boxes as [|box boxes IH]; [done|].
  rewrite region_urls_cons. simpl.
  destruct (truthy (box_url box)); [done|apply IH].
Qed.

(** X2. A layout without any url (the empty layout, or cells with empty
    urls only) never throws: it sends [CLEAR] to every view of the pool, in
    the order of the pool, and nothing else. *)
Theorem setViews_empty_layout_clears_all boxes win :
  region_urls boxes = [] →
  setViews boxes win
  = Normal (issue (map (λ i, (i, CLEAR)) (all_views win)) win).
Proof.
  intros Hno. by rewrite setViews_plan, plan_regions_no_url.
Qed.

Lemma plan_regions_no_view boxes :
  plan_regions [] boxes []
  = ([], if bool_decide (region_urls boxes = []) then Some [] else None).
Proof.
  induction boxes as [|box boxes IH]; [done|].
  rewrite region_urls_cons. simpl.
  destruct (truthy (box_url box)); [done|apply IH].
Qed.

(** X3. Before [init] the pool is empty: [setViews] throws at the first
    region with a url, having sent nothing, and does nothing at all when no
    region has a url. *)
Theorem setViews_empty_pool boxes win :
  views win = [] →
  setViews boxes win
  = if bool_decide (region_urls boxes = []) then Normal win else Throw win.
Proof.
  intros Hviews. rewrite setViews_plan. unfold pool_snapshot, all_views.
  rewrite Hviews. simpl. rewrite plan_regions_no_view. simpl.
  by destruct (bool_decide (region_urls boxes = [])).
Qed.

Lemma match_slot_choice snap unclaimed u i :
  match_slot snap unclaimed u = Some i →
  ∃ e, snap !! i = Some e ∧ (e.1 = Some u ∨ e.2 ≠ displaying).
Proof.
  unfold match_slot. intros H.
  destruct (find (λ i e, has unclaimed i && bool_decide (e.1 = Some u)) snap)
    as [k|] eqn:Hf.
  - injection H as ->.
    apply find_Some in Hf as [(e & He & [_ Hu]%andb_true_iff) _].
    exists e. split; [done|]. left. by apply bool_decide_eq_true in Hu.
  - apply find_Some in H as [(e & He & [_ Hd]%andb_true_iff) _].
    exists e. split; [done|]. right.
    by apply negb_true_iff, bool_decide_eq_false in Hd.
Qed.

Lemma match_slot_holder snap unclaimed u i j e :
  match_slot snap unclaimed u = Some i →
  j ∈ unclaimed → snap !! j = Some e → e.1 = Some u →
  ∃ e', snap !! i = Some e' ∧ e'.1 = Some u.
Proof.
  unfold match_slot. intros H Hj He Hu.
  destruct (find (λ i e, has unclaimed i && bool_decide (e.1 = Some u)) snap)
    as [k|] eqn:Hf.
  - injection H as ->.
    apply find_Some in Hf as [(e' & He' & [_ Hu']%andb_true_iff) _].
    exists e'. split; [done|]. by apply bool_decide_eq_true in Hu'.
  - pose proof (proj1 (find_None _ _) Hf j e He) as Hc.
    apply andb_false_iff in Hc as [Hc|Hc].
    + apply (proj2 (has_true _ _)) in Hj. congruence.
    + by apply bool_decide_eq_false in Hc.
Qed.

Lemma plan_regions_choice snap boxes : ∀ unclaimed i p u,
  (i, DISPLAY p u) ∈ (plan_regions snap boxes unclaimed).1 →
  (∃ e, snap !! i = Some e ∧ (e.1 = Some u ∨ e.2 ≠ displaying)) ∧
  ∃ box, box ∈ boxes ∧ truthy (box_url box) = Some u ∧ p = box_pos box.
Proof.
  induction boxes as [|box boxes IH]; intros unclaimed i p u; simpl.
  - by intros ?%elem_of_nil.
  - destruct (truthy (box_url box)) as [u'|] eqn:Hu'.
    2: { intros Hin. destruct (IH _ _ _ _ Hin) as [? (b & ? & ? & ?)].
         split; [done|]. exists b. split; [by right|done]. }
    destruct (match_slot snap unclaimed u') as [k|] eqn:Hk; simpl.
    2: by intros ?%elem_of_nil.
    intros [[= -> -> ->]|Hin]%elem_of_cons.
    + split; [by eapply match_slot_choice|]. exists box. split; [left|done].
    + destruct (IH _ _ _ _ Hin) as [? (b & ? & ? & ?)].
      split; [done|]. exists b. split; [by right|done].
Qed.

Lemma issued_setViews_inv boxes win i e :
  (i, e) ∈ issued win (outcome (setViews boxes win)) →
  (i, e) ∈ (plan_regions (pool_snapshot win) boxes (all_views win)).1 ∨ e = CLEAR.
Proof.
  rewrite issued_setViews. intros [Hin|Hin]%elem_of_app; [by left|]. right.
  destruct (plan_regions (pool_snapshot win) boxes (all_views win)).2;
    [|by apply elem_of_nil in Hin].
  by apply list_elem_of_fmap in Hin as (j & [= _ ->] & _).
Qed.

(** X5. A pass never navigates a [displaying] view to another url: a view
    that is [displaying] when the pass starts is sent a [DISPLAY] only with
    the url it holds. *)
Theorem setViews_keeps_displayed_url boxes win i p u s :
  (i, DISPLAY p u) ∈ issued win (outcome (setViews boxes win)) →
  views win !! i = Some s →
  value s = displaying →
  url (context s) = Some u.
Proof.
  intros [Hin|?]%issued_setViews_inv Hs Hd; [|done].
  destruct (plan_regions_choice _ _ _ _ _ _ Hin) as [(e & He & Hor) _].
  unfold pool_snapshot in He. rewrite list_lookup_fmap, Hs in He.
  injection He as <-. simpl in Hor. by destruct Hor.
Qed.

(** X6. The only commands of a pass are [CLEAR] and, for a region of the
    layout with a url, [DISPLAY] with that url and the rectangle of the
    region in pixels: its cell coordinates and size times [SPACE_WIDTH] and
    [SPACE_HEIGHT], with the spaces of the region. *)
Theorem setViews_commands_from_layout boxes win i e :
  (i, e) ∈ issued win (outcome (setViews boxes win)) →
  e = CLEAR ∨
  ∃ box u, box ∈ boxes ∧ truthy (box_url box) = Some u ∧
    e = DISPLAY {| pos_x := SPACE_WIDTH * box_x box;
                   pos_y := SPACE_HEIGHT * box_y box;
                   pos_width := SPACE_WIDTH * box_w box;
                   pos_height := SPACE_HEIGHT * box_h box;
                   pos_spaces := box_spaces box |} u.
Proof.
  intros [Hin|?]%issued_setViews_inv; [|by left]. right.
  destruct (plan_regions_targets _ _ _ _ _ _ Hin) as (_ & _ & Hd).
  destruct e as [p u| | | | |]; try done.
  destruct (plan_regions_choice _ _ _ _ _ _ Hin) as [_ (box & Hb & Hu & ->)].
  by exists box, u.
Qed.

Lemma plan_regions_reuse snap j u boxes : ∀ unclaimed rest,
  snap !! j = Some (Some u, displaying) →
  (plan_regions snap boxes unclaimed).2 = Some rest →
  j ∈ unclaimed →
  u ∈ region_urls boxes →
  ∃ i p e, (i, DISPLAY p u) ∈ (plan_regions snap boxes unclaimed).1 ∧
           snap !! i = Some e ∧ e.1 = Some u.
Proof.
  intros unclaimed rest Hsnap. revert unclaimed rest.
  induction boxes as [|box boxes IH]; intros unclaimed rest.
  - intros _ _ ?%elem_of_nil. done.
  - rewrite region_urls_cons. simpl.
    destruct (truthy (box_url box)) as [u'|] eqn:Hu'; [|apply IH].
    destruct (match_slot snap unclaimed u') as [k|] eqn:Hk; simpl; [|done].
    intros Hrest Hj Hu. destruct (decide (u' = u)) as [->|Hne].
    + destruct (match_slot_holder _ _ _ _ _ _ Hk Hj Hsnap eq_refl) as (e & He & Heu).
      exists k, (box_pos box), e. split; [left|done].
    + apply elem_of_cons in Hu as [->|Hu]; [done|].
      assert (k ≠ j) as Hkj.
      { intros ->. destruct (match_slot_choice _ _ _ _ Hk) as (e & He & Hor).
        rewrite Hsnap in He. injection He as <-. simpl in Hor.
        destruct Hor as [[= ->]|?]; done. }
      destruct (IH (delete k unclaimed) rest Hrest) as (i & p & e & Hin & He & Heu);
        [apply elem_of_delete; by split|done|].
      exists i, p, e. split; [by right|done].
Qed.

(** X7. Reuse: when some view is [displaying] a url that the layout asks
    for, a pass that comes to its end sends the [DISPLAY] for that url to a
    view that already holds it. *)
Theorem setViews_reuses_displayed_url boxes win win' j s u :
  setViews boxes win = Normal win' →
  views win !! j = Some s →
  value s = displaying →
  url (context s) = Some u →
  u ∈ region_urls boxes →
  ∃ i p s', (i, DISPLAY p u) ∈ issued win win' ∧
            views win !! i = Some s' ∧ url (context s') = Some u.
Proof.
  intros Hset Hs Hd Hu Hin.
  assert (win' = outcome (setViews boxes win)) as -> by (by rewrite Hset).
  rewrite setViews_plan in Hset. rewrite issued_setViews.
  destruct (plan_regions (pool_snapshot win) boxes (all_views win)).2
    as [rest|] eqn:Hrest; [|done].
  destruct (plan_regions_reuse (pool_snapshot win) j u boxes (all_views win) rest)
    as (i & p & e & Hi & He & Heu); [|done| |done|].
  - unfold pool_snapshot. rewrite list_lookup_fmap, Hs. simpl. by rewrite Hd, Hu.
  - unfold all_views. apply elem_of_seq. apply lookup_lt_Some in Hs. lia.
  - unfold pool_snapshot in He. rewrite list_lookup_fmap in He.
    destruct (views win !! i) as [s'|] eqn:Hs'; [|done]. injection He as <-.
    exists i, p, s'. split; [apply elem_of_app; by left|done].
Qed.

Lemma delete_seq_head k m : delete k (seq k (S m)) = seq (S k) m.
Proof.
  simpl. unfold delete. rewrite filter_cons_False by (intros H; by apply H).
  fold (delete k (seq (S k) m)). apply delete_absent.
  rewrite elem_of_seq. lia.
Qed.

Lemma match_slot_fresh snap k m u :
  (∀ e, e ∈ snap → e.1 = None ∧ e.2 ≠ displaying) →
  (k + S m <= length snap)%nat →
  match_slot snap (seq k (S m)) u = Some k.
Proof.
  intros Hfresh Hlen. unfold match_slot.
  assert (find (λ i e, has (seq k (S m)) i && bool_decide (e.1 = Some u)) snap = None)
    as ->.
  { apply find_None. intros j e He. apply andb_false_iff. right.
    apply bool_decide_eq_false. apply list_elem_of_lookup_2 in He.
    destruct (Hfresh e He) as [-> _]. done. }
  apply find_Some.
  destruct (lookup_lt_is_Some_2 snap k ltac:(lia)) as [e He].
  split.
  - exists e. split; [done|]. apply andb_true_iff. split.
    + apply has_true, elem_of_seq. lia.
    + apply negb_true_iff, bool_decide_eq_false.
      apply list_elem_of_lookup_2 in He. by destruct (Hfresh e He).
  - intros j e' Hj _. apply andb_false_iff. left. unfold has.
    apply bool_decide_eq_false. rewrite elem_of_seq. lia.
Qed.

Lemma plan_regions_fresh snap boxes : ∀ k m,
  (∀ e, e ∈ snap → e.1 = None ∧ e.2 ≠ displaying) →
  (k + m <= length snap)%nat →
  (length (region_urls boxes) <= m)%nat →
  map fst (plan_regions snap boxes (seq k m)).1 = seq k (length (region_urls boxes)) ∧
  (plan_regions snap boxes (seq k m)).2
  = Some (seq (k + length (region_urls boxes)) (m - length (region_urls boxes))).
Proof.
  induction boxes as [|box boxes IH]; intros k m Hfresh Hlen Hn.
  - simpl. split; [done|]. do 2 f_equal; lia.
  - rewrite region_urls_cons in *. simpl.
    destruct (truthy (box_url box)) as [u|]; [|by apply IH].
    simpl in Hn. destruct m as [|m]; [lia|].
    rewrite match_slot_fresh by done. rewrite delete_seq_head. simpl.
    destruct (IH (S k) m Hfresh ltac:(lia) ltac:(lia)) as [-> ->].
    split; [done|]. do 2 f_equal; lia.
Qed.

(** X8. On a pool in which no view holds a url and none is [displaying], a
    layout with no more regions than views comes to its end and gives its
    regions the first views of the pool, in order: the [k]-th region with a
    url is displayed by view [k], the views after them are cleared. *)
Theorem setViews_fresh_pool boxes win :
  (∀ s, s ∈ views win → url (context s) = None ∧ value s ≠ displaying) →
  (length (region_urls boxes) <= length (views win))%nat →
  is_normal (setViews boxes win) = true ∧
  claimed (issued win (outcome (setViews boxes win)))
  = seq 0 (length (region_urls boxes)) ∧
  ∀ i, (i, CLEAR) ∈ issued win (outcome (setViews boxes win)) ↔
       (length (region_urls boxes) <= i < length (views win))%nat.
Proof.
  intros Hfresh Hn.
  destruct (plan_regions_fresh (pool_snapshot win) boxes 0 (length (views win)))
    as [Hcmds Hrest]; [| |done|].
  { intros e (s & -> & Hs)%list_elem_of_fmap. by apply Hfresh. }
  { unfold pool_snapshot. rewrite length_map. lia. }
  rewrite issued_setViews, setViews_plan. unfold all_views. rewrite Hrest.
  split; [done|]. unfold claimed.
  rewrite List.filter_app, filter_display_clear, app_nil_r, filter_display_plan.
  split; [done|]. intros i. rewrite elem_of_app. split.
  - intros [Hc|Hc].
    + by destruct (plan_regions_targets _ _ _ _ _ _ Hc) as (_ & _ & ?).
    + apply list_elem_of_fmap in Hc as (j & [= ->] & Hj).
      apply elem_of_seq in Hj. lia.
  - intros Hi. right. apply list_elem_of_fmap. exists i. split; [done|].
    apply elem_of_seq. lia.
Qed.

(** ** More on the listening focus *)

Lemma focus_cmds_targets viewIdx vs idxs i :
  i ∈ map fst (focus_cmds viewIdx vs idxs) → i ∈ idxs.
Proof.
  intros ([j e] & -> & Hin)%list_elem_of_fmap.
  by apply elem_of_focus_cmds in Hin as [? _].
Qed.

Lemma focus_cmds_NoDup viewIdx vs idxs :
  NoDup idxs → NoDup (map fst (focus_cmds viewIdx vs idxs)).
Proof.
  induction idxs as [|i idxs IH]; intros Hnd; [constructor|].
  apply NoDup_cons in Hnd as [Hi Hnd]. rewrite focus_cmds_cons.
  destruct (vs !! i) as [s|]; [|by apply IH].
  destruct (matches_displaying s); [|by apply IH].
  simpl. apply NoDup_cons. split; [|by apply IH].
  intros Hin. by apply focus_cmds_targets in Hin.
Qed.

(** The state a view is left in by [setListeningView]. *)
Lemma views_after_listening viewIdx win :
  views (issue (focus_cmds viewIdx (views win) (all_views win)) win)
  = map (λ s, if matches_displaying s
              then transition s (if bool_decide (viewIdx ∈ view_spaces s)
                                 then UNMUTE else MUTE)
              else s) (views win).
Proof.
  apply list_eq. intros j. rewrite list_lookup_fmap.
  destruct (views win !! j) as [s|] eqn:Hs; simpl.
  - assert (j ∈ all_views win) as Hj.
    { unfold all_views. apply elem_of_seq. apply lookup_lt_Some in Hs. lia. }
    destruct (matches_displaying s) eqn:Hd.
    + rewrite (views_issue_once transition _ win j
                 (if bool_decide (viewIdx ∈ view_spaces s) then UNMUTE else MUTE)).
      * by rewrite Hs.
      * apply focus_cmds_NoDup, NoDup_seq.
      * apply elem_of_focus_cmds. split; [done|]. exists s. split; [done|].
        split; [|done]. unfold matches_displaying in Hd.
        by apply bool_decide_eq_true in Hd.
    + rewrite views_issue_other; [done|].
      intros ([j' e] & -> & Hin)%list_elem_of_fmap.
      apply elem_of_focus_cmds in Hin as (_ & s' & Hs' & Hd' & _).
      simpl in Hs. rewrite Hs in Hs'. injection Hs' as <-.
      unfold matches_displaying in Hd. by rewrite bool_decide_eq_true_2 in Hd.
  - rewrite views_issue_other; [done|].
    intros ([j' e] & -> & Hin)%list_elem_of_fmap.
    apply elem_of_focus_cmds in Hin as (_ & s' & Hs' & _). simpl in Hs. congruence.
Qed.

(** X9. [setListeningView] changes no view that is not [displaying] and
    keeps the size of the pool; a [displaying] view is left in the state its
    machine reaches on the one command it is sent. *)
Theorem setListeningView_frame viewIdx win :
  (∀ s, s ∈ views win → value s = displaying → is_Some (pos (context s))) →
  ∃ win',
    setListeningView viewIdx win = Normal win' ∧
    length (views win') = length (views win) ∧
    ∀ i s, views win !! i = Some s →
      (value s ≠ displaying → views win' !! i = Some s) ∧
      (value s = displaying →
         views win' !! i
         = Some (transition s (if bool_decide (viewIdx ∈ view_spaces s)
                               then UNMUTE else MUTE))).
Proof.
  intros Hpos. eexists. split; [by apply setListeningView_cmds|].
  split; [apply length_views_issue|].
  intros i s Hs. rewrite views_after_listening, list_lookup_fmap, Hs. simpl.
  unfold matches_displaying. split; intros Hd.
  - by rewrite bool_decide_eq_false_2.
  - by rewrite bool_decide_eq_true_2.
Qed.

Lemma listen_from_throw viewIdx k post s : ∀ pre win,
  NoDup (pre ++ k :: post) →
  (∀ i s', i ∈ pre → views win !! i = Some s' → value s' = displaying →
           is_Some (pos (context s'))) →
  views win !! k = Some s → value s = displaying → pos (context s) = None →
  listen_from viewIdx (pre ++ k :: post) win
  = Throw (issue (focus_cmds viewIdx (views win) pre) win).
Proof.
  induction pre as [|i pre IH]; intros win Hnd Hpos Hs Hd Hp.
  - simpl. rewrite Hs. unfold matches_displaying.
    rewrite bool_decide_eq_true_2 by done. simpl. by rewrite Hp.
  - simpl in Hnd. apply NoDup_cons in Hnd as [Hi Hnd].
    assert (i ≠ k) as Hik.
    { intros ->. apply Hi. apply elem_of_app. right. left. }
    assert (i ∉ pre) as Hipre.
    { intros ?. apply Hi. apply elem_of_app. by left. }
    assert (∀ i' s', i' ∈ pre → views win !! i' = Some s' →
              value s' = displaying → is_Some (pos (context s'))) as Hpos'.
    { intros i' s' Hi'. apply Hpos. by right. }
    rewrite focus_cmds_cons. simpl.
    destruct (views win !! i) as [view|] eqn:Hview; [|by apply IH].
    destruct (matches_displaying view) eqn:Hdv; simpl; [|by apply IH].
    assert (value view = displaying) as Hval.
    { unfold matches_displaying in Hdv. by apply bool_decide_eq_true in Hdv. }
    destruct (Hpos i view ltac:(left) Hview Hval) as [p Hpv]. rewrite Hpv.
    unfold view_spaces. rewrite Hpv, issue_cons. simpl.
    rewrite IH; [|done| |by (simpl; rewrite list_lookup_alter_ne)|done|done].
    + f_equal. f_equal. apply focus_cmds_ext. intros j Hj. simpl.
      apply list_lookup_alter_ne. by intros ->.
    + intros i' s' Hi'. simpl. rewrite list_lookup_alter_ne by (by intros ->).
      by apply Hpos'.
Qed.

(** X10. [setListeningView] throws at the first [displaying] view that has
    no position: the [displaying] views before it have been sent their
    command, the views after it are sent nothing. *)
Theorem setListeningView_missing_pos viewIdx win k s :
  views win !! k = Some s →
  value s = displaying →
  pos (context s) = None →
  (∀ i s', (i < k)%nat → views win !! i = Some s' → value s' = displaying →
           is_Some (pos (context s'))) →
  setListeningView viewIdx win
  = Throw (issue (focus_cmds viewIdx (views win) (seq 0 k)) win).
Proof.
  intros Hs Hd Hp Hbefore. unfold setListeningView, all_views.
  pose proof (lookup_lt_Some _ _ _ Hs) as Hlt.
  replace (length (views win)) with (k + S (length (views win) - S k))%nat by lia.
  rewrite seq_app. simpl.
  apply (listen_from_throw viewIdx k _ s); [|..|done|done|done].
  - change (NoDup (seq 0 k ++ seq (0 + k) (S (length (views win) - S k)))).
    rewrite <- seq_app. apply NoDup_seq.
  - intros i s' Hi. apply Hbefore. apply elem_of_seq in Hi. lia.
Qed.

(** X11. With a machine in which [MUTE] and [UNMUTE] leave the state value
    and the position as they are and change nothing when repeated, routing
    the same focus again sends the same commands and changes no view. *)
Theorem setListeningView_repeat viewIdx win :
  (∀ s e, e = MUTE ∨ e = UNMUTE →
          value (transition s e) = value s ∧
          pos (context (transition s e)) = pos (context s) ∧
          transition (transition s e) e = transition s e) →
  (∀ s, s ∈ views win → value s = displaying → is_Some (pos (context s))) →
  ∃ win1 win2,
    setListeningView viewIdx win = Normal win1 ∧
    setListeningView viewIdx win1 = Normal win2 ∧
    issued win1 win2 = issued win win1 ∧
    views win2 = views win1.
Proof.
  intros Hmachine Hpos.
  set (cmd := λ s : ViewState,
         if bool_decide (viewIdx ∈ view_spaces s) then UNMUTE else MUTE).
  assert (∀ s, cmd s = MUTE ∨ cmd s = UNMUTE) as Hcmd.
  { intros s. unfold cmd. destruct (bool_decide _); [by right|by left]. }
  set (f := λ s, if matches_displaying s then transition s (cmd s) else s).
  assert (∀ s, value (f s) = value s ∧ pos (context (f s)) = pos (context s))
    as Hkeep.
  { intros s. unfold f. destruct (matches_displaying s); [|done].
    destruct (Hmachine s (cmd s) (Hcmd s)) as (? & ? & _). done. }
  assert (∀ s, f (f s) = f s) as Hidem.
  { intros s. destruct (Hkeep s) as [Hv Hp]. unfold f at 1.
    unfold matches_displaying. rewrite Hv.
    fold (matches_displaying s). unfold f.
    destruct (matches_displaying s) eqn:Hd; [|done].
    assert (cmd (transition s (cmd s)) = cmd s) as ->.
    { unfold cmd, view_spaces.
      destruct (Hmachine s (cmd s) (Hcmd s)) as (_ & Hp' & _).
      unfold cmd, view_spaces in Hp'. by rewrite Hp'. }
    by destruct (Hmachine s (cmd s) (Hcmd s)) as (_ & _ & ?). }
  set (win1 := issue (focus_cmds viewIdx (views win) (all_views win)) win).
  assert (views win1 = map f (views win)) as Hviews1
    by apply views_after_listening.
  assert (focus_cmds viewIdx (views win1) (all_views win1)
          = focus_cmds viewIdx (views win) (all_views win)) as Hsame.
  { unfold all_views. rewrite Hviews1, length_map.
    generalize (seq 0 (length (views win))) as idxs.
    induction idxs as [|i idxs IH]; [done|].
    rewrite !focus_cmds_cons, IH, list_lookup_fmap.
    destruct (views win !! i) as [s|]; simpl; [|done].
    destruct (Hkeep s) as [Hv Hp]. unfold matches_displaying, view_spaces.
    by rewrite Hv, Hp. }
  exists win1, (issue (focus_cmds viewIdx (views win) (all_views win)) win1).
  split; [by apply setListeningView_cmds|]. split.
  - rewrite setListeningView_cmds, Hsame; [done|].
    intros s Hs Hd. rewrite Hviews1 in Hs.
    apply list_elem_of_fmap in Hs as (s0 & -> & Hs0).
    destruct (Hkeep s0) as [Hv Hp]. rewrite Hp. apply Hpos; [done|congruence].
  - split; [unfold win1; by rewrite !issued_issue|].
    rewrite <- Hsame at 1. rewrite views_after_listening, Hviews1.
    rewrite <- list_fmap_compose. apply list_fmap_ext. intros _ s _. apply Hidem.
Qed.

End SchedulerMore.

(** * The aggregate of view states *)

Lemma map_get_set_eq {V} k (v : V) m : map_get k (map_set k v m) = Some v.
Proof.
  induction m as [|e m IH]; simpl.
  - by rewrite decide_True.
  - destruct (decide (e.1 = k)) as [He|He]; simpl.
    + by rewrite decide_True.
    + by rewrite decide_False.
Qed.

Lemma map_get_set_ne {V} k j (v : V) m :
  j ≠ k → map_get j (map_set k v m) = map_get j m.
Proof.
  intros Hne. induction m as [|e m IH]; simpl.
  - by rewrite decide_False.
  - destruct (decide (e.1 = k)) as [He|He]; simpl.
    + rewrite decide_False by done. rewrite decide_False by congruence. done.
    + destruct (decide (e.1 = j)); [done|apply IH].
Qed.

Lemma map_set_keys {V} k (v : V) m :
  map fst (map_set k v m)
  = if bool_decide (k ∈ map fst m) then map fst m else map fst m ++ [k].
Proof.
  induction m as [|e m IH]; simpl; [done|].
  destruct (decide (e.1 = k)) as [He|He]; simpl.
  - rewrite bool_decide_eq_true_2 by (rewrite He; left). by rewrite He.
  - rewrite IH. destruct (bool_decide (k ∈ map fst m)) eqn:Hk.
    + apply bool_decide_eq_true in Hk.
      by rewrite bool_decide_eq_true_2 by (by right).
    + apply bool_decide_eq_false in Hk.
      rewrite bool_decide_eq_false_2; [done|].
      intros [?|?]%elem_of_cons; [congruence|done].
Qed.

Lemma map_get_None {V} k (m : list (nat * V)) :
  map_get k m = None ↔ k ∉ map fst m.
Proof.
  induction m as [|e m IH]; simpl.
  - split; [|done]. intros _ ?%elem_of_nil. done.
  - destruct (decide (e.1 = k)) as [He|He].
    + split; [done|]. intros Hk. exfalso. apply Hk. rewrite He. left.
    + rewrite IH, not_elem_of_cons. split; [|tauto]. intros ?. split; [congruence|done].
Qed.

(** X12. [handleViewTransition(idx, state)] stores the state value, url,
    metadata and position of [state] under [idx] and leaves the entries of
    the other views as they are; the views already in [viewStates] keep
    their places, a view seen for the first time goes to the end; the array
    emitted with ['state'] holds the entries in that order. *)
Theorem handleViewTransition_lookup idx state agg :
  map_get idx (viewStates (handleViewTransition idx state agg))
    = Some {| entry_state := value state;
              entry_context := {| url := url (context state);
                                  info := info (context state);
                                  pos := pos (context state) |} |} ∧
  (∀ j, j ≠ idx →
        map_get j (viewStates (handleViewTransition idx state agg))
        = map_get j (viewStates agg)) ∧
  map fst (viewStates (handleViewTransition idx state agg))
    = (if bool_decide (idx ∈ map fst (viewStates agg))
       then map fst (viewStates agg)
       else map fst (viewStates agg) ++ [idx]) ∧
  emitted (handleViewTransition idx state agg)
    = emitted agg
      ++ [map snd (viewStates (handleViewTransition idx state agg))].
Proof.
  unfold handleViewTransition. simpl. split; [apply map_get_set_eq|].
  split; [intros j Hj; by apply map_get_set_ne|].
  split; [apply map_set_keys|done].
Qed.

Lemma handleViewTransition_keys_grow idx state agg :
  ∃ k, map fst (viewStates (handleViewTransition idx state agg))
       = map fst (viewStates agg) ++ k.
Proof.
  unfold handleViewTransition. simpl. rewrite map_set_keys.
  destruct (bool_decide _); [exists []; by rewrite app_nil_r|by exists [idx]].
Qed.

Lemma handleViewTransitions_snoc ts t agg :
  handleViewTransitions (ts ++ [t]) agg
  = handleViewTransition t.1 t.2 (handleViewTransitions ts agg).
Proof. unfold handleViewTransitions. by rewrite fold_left_app. Qed.

Lemma last_state_snoc idx ts t :
  last_state idx (ts ++ [t])
  = if bool_decide (t.1 = idx) then Some t.2 else last_state idx ts.
Proof.
  unfold last_state. rewrite List.filter_app. simpl.
  destruct (bool_decide (t.1 = idx)).
  - by rewrite last_snoc.
  - by rewrite app_nil_r.
Qed.

(** X13. After any run of transitions from the empty map, [viewStates]
    has one entry for each view that made a transition, holding the last
    state reported for it, and none for a view that made no transition; one
    ['state'] event was emitted per transition, the last one carrying the
    entries of [viewStates]. *)
Theorem aggregate_holds_latest_states ts :
  NoDup (map fst (viewStates (handleViewTransitions ts new_aggregate))) ∧
  (∀ idx, map_get idx (viewStates (handleViewTransitions ts new_aggregate))
          = entry_of <$> last_state idx ts) ∧
  (∀ idx, idx ∈ map fst (viewStates (handleViewTransitions ts new_aggregate))
          ↔ idx ∈ map fst ts) ∧
  length (emitted (handleViewTransitions ts new_aggregate)) = length ts ∧
  last (emitted (handleViewTransitions ts new_aggregate))
    = (λ _, map snd (viewStates (handleViewTransitions ts new_aggregate)))
      <$> last ts.
Proof.
  induction ts as [|t ts IH] using rev_ind.
  - simpl. split; [constructor|]. split; [done|]. split; [done|]. done.
  - destruct IH as (Hnd & Hget & Hkeys & Hlen & _).
    rewrite handleViewTransitions_snoc.
    set (agg := handleViewTransitions ts new_aggregate) in *.
    pose proof (map_get_set_eq t.1 (entry_of t.2) (viewStates agg)) as Heq.
    pose proof (λ j, map_get_set_ne t.1 j (entry_of t.2) (viewStates agg)) as Hne.
    pose proof (map_set_keys t.1 (entry_of t.2) (viewStates agg)) as Hk.
    assert (emitted (handleViewTransition t.1 t.2 agg)
            = emitted agg
              ++ [map snd (viewStates (handleViewTransition t.1 t.2 agg))])
      as Hem by done.
    change (viewStates (handleViewTransition t.1 t.2 agg))
      with (map_set t.1 (entry_of t.2) (viewStates agg)) in *.
    split; [|split; [|split; [|split]]].
    + rewrite Hk. destruct (bool_decide _) eqn:Hin; [done|].
      apply bool_decide_eq_false in Hin. apply NoDup_app.
      split; [done|]. split; [|apply NoDup_singleton].
      intros j Hj ->%list_elem_of_singleton. done.
    + intros idx. rewrite last_state_snoc.
      destruct (bool_decide (t.1 = idx)) eqn:Hidx.
      * apply bool_decide_eq_true in Hidx. subst idx. by rewrite Heq.
      * apply bool_decide_eq_false in Hidx. rewrite Hne by done. apply Hget.
    + intros idx. rewrite Hk, map_app, elem_of_app. simpl.
      rewrite list_elem_of_singleton. destruct (bool_decide _) eqn:Hin.
      * apply bool_decide_eq_true in Hin. rewrite Hkeys.
        split; [by left|]. intros [?| ->]; [done|]. by apply Hkeys.
      * rewrite elem_of_app, list_elem_of_singleton, Hkeys. done.
    + rewrite Hem, !length_app. simpl. lia.
    + rewrite Hem, !last_snoc. done.
Qed.

(** X14. The place of a view in the emitted array never changes once the
    view has made a transition: the order of the entries is the order in
    which the views made their first transition, and later transitions only
    add entries at the end. *)
Theorem aggregate_order_is_stable ts ts' :
  map fst (viewStates (handleViewTransitions ts new_aggregate))
  `prefix_of`
  map fst (viewStates (handleViewTransitions (ts ++ ts') new_aggregate)).
Proof.
  induction ts' as [|t ts' IH] using rev_ind.
  - by rewrite app_nil_r.
  - rewrite app_assoc, handleViewTransitions_snoc.
    etrans; [exact IH|].
    destruct (handleViewTransition_keys_grow t.1 t.2
                (handleViewTransitions (ts ++ ts') new_aggregate)) as [k Hk].
    by exists k.
Qed.

(** * The rotation of the video *)

Lemma string_length_app s t :
  String.length (s +:+ t) = (String.length s + String.length t)%nat.
Proof. induction s as [|a s IH]; simpl; [done|by rewrite IH]. Qed.

Lemma string_app_inj_r t : ∀ s1 s2, s1 +:+ t = s2 +:+ t → s1 = s2.
Proof.
  induction s1 as [|a s1 IH]; intros [|b s2] H; simpl in H.
  - done.
  - apply (f_equal String.length) in H.
    rewrite !string_length_app in H. simpl in H. lia.
  - apply (f_equal String.length) in H.
    rewrite !string_length_app in H. simpl in H. lia.
  - injection H as -> H. f_equal. by apply IH.
Qed.

Lemma rotation_class_inj (r r' : Z) :
  "__rot" +:+ pretty r +:+ "__" = "__rot" +:+ pretty r' +:+ "__" → r = r'.
Proof.
  intros H. apply (String.app_inj "__rot") in H.
  apply string_app_inj_r in H. by apply (inj pretty) in H.
Qed.

Lemma rotation_class_styled (r : Z) :
  "__rot" +:+ pretty r +:+ "__" ∈ rotation_classes ↔ r ∈ [0; 90; 180; 270].
Proof.
  unfold rotation_classes. split.
  - intros H. repeat (apply elem_of_cons in H as [H|H]);
      [| | | |by apply elem_of_nil in H].
    + apply (rotation_class_inj r 0) in H as ->. repeat constructor.
    + apply (rotation_class_inj r 90) in H as ->. repeat constructor.
    + apply (rotation_class_inj r 180) in H as ->. repeat constructor.
    + apply (rotation_class_inj r 270) in H as ->. repeat constructor.
  - intros H. repeat (apply elem_of_cons in H as [->|H]);
      [| | | |by apply elem_of_nil in H]; vm_compute; repeat constructor.
Qed.

Lemma rotation_update_class_of c :
  className (rotation_update c)
    = "__rot" +:+ pretty (Z.rem (siteRotation c + customRotation c) 360) +:+ "__" ∧
  warned (rotation_update c)
    = if bool_decide (Z.rem (siteRotation c + customRotation c) 360
                      ∈ [0; 90; 180; 270])
      then warned c
      else warned c ++ [Z.rem (siteRotation c + customRotation c) 360].
Proof. done. Qed.

(** X15. [_update] always assigns the class [__rot<r>__] for the remainder
    [r] of the sum of the two rotations by 360, also when it warns that the
    rotation is ignored; it warns exactly when that class is none of the
    four classes the style sheet has a rule for. *)
Theorem rotation_update_warns_iff_unstyled c :
  className (rotation_update c)
    = "__rot" +:+ pretty (Z.rem (siteRotation c + customRotation c) 360) +:+ "__" ∧
  (className (rotation_update c) ∈ rotation_classes ↔
   warned (rotation_update c) = warned c) ∧
  (className (rotation_update c) ∉ rotation_classes ↔
   warned (rotation_update c)
   = warned c ++ [Z.rem (siteRotation c + customRotation c) 360]).
Proof.
  unfold rotation_update. simpl. split; [done|].
  rewrite rotation_class_styled.
  destruct (bool_decide _) eqn:Hv.
  - apply bool_decide_eq_true in Hv. split; [done|]. split; [done|].
    intros H. apply (f_equal length) in H. rewrite length_app in H.
    simpl in H. lia.
  - apply bool_decide_eq_false in Hv. split; [|done]. split; [done|].
    intros H. apply (f_equal length) in H. rewrite length_app in H.
    simpl in H. lia.
Qed.

(** X16. Rotations by 0, 90, 180 and 270 degrees are closed under
    [setSite] and [setCustom]: when the other rotation is one of them and
    the new one is one of them or is left out, the video gets one of the
    four styled classes and no warning is given. *)
Theorem quarter_turns_are_styled c rotation :
  siteRotation c ∈ [0; 90; 180; 270] →
  customRotation c ∈ [0; 90; 180; 270] →
  default 0 rotation ∈ [0; 90; 180; 270] →
  className (setSite rotation c) ∈ rotation_classes ∧
  warned (setSite rotation c) = warned c ∧
  className (setCustom rotation c) ∈ rotation_classes ∧
  warned (setCustom rotation c) = warned c.
Proof.
  intros Hs Hc Hr. destruct c as [site custom cls w]. simpl in Hs, Hc.
  unfold setSite, setCustom, rotation_update. simpl.
  generalize dependent (default 0 rotation). intros r Hr.
  repeat (apply elem_of_cons in Hs as [->|Hs]);
    try (by apply elem_of_nil in Hs);
    repeat (apply elem_of_cons in Hc as [->|Hc]);
    try (by apply elem_of_nil in Hc);
    repeat (apply elem_of_cons in Hr as [->|Hr]);
    try (by apply elem_of_nil in Hr);
    vm_compute; repeat split; repeat constructor.
Qed.

Lemma negative_rotation_update c :
  siteRotation c + customRotation c < 0 →
  ¬ (360 | siteRotation c + customRotation c) →
  (className (rotation_update c) ∉ rotation_classes) ∧
  warned (rotation_update c)
  = warned c ++ [Z.rem (siteRotation c + customRotation c) 360].
Proof.
  intros Hneg Hdiv.
  assert (-360 < Z.rem (siteRotation c + customRotation c) 360 < 0) as Hr.
  { pose proof (Z.rem_bound_pos_neg (siteRotation c + customRotation c) 360
                  ltac:(lia) ltac:(lia)).
    assert (Z.rem (siteRotation c + customRotation c) 360 ≠ 0); [|lia].
    intros H0. apply Hdiv. apply Z.rem_divide; [lia|done]. }
  destruct (rotation_update_class_of c) as [Hcls Hw].
  assert (Z.rem (siteRotation c + customRotation c) 360 ∉ [0; 90; 180; 270])
    as Hnot.
  { intros H. repeat (apply elem_of_cons in H as [H|H]); try lia.
    by apply elem_of_nil in H. }
  split.
  - rewrite Hcls, rotation_class_styled. done.
  - rewrite Hw. by rewrite bool_decide_eq_false_2.
Qed.

(** X17. The remainder keeps the sign of the sum, so a negative sum of the
    rotations that is not a multiple of 360 is never normalised: also when
    it is a quarter turn (a custom rotation of -90, say), [setCustom] and
    [setSite] warn and give the video a class without style rule. *)
Theorem negative_rotation_is_unstyled c rotation :
  (siteRotation c + default 0 rotation < 0 →
   ¬ (360 | siteRotation c + default 0 rotation) →
   (className (setCustom rotation c) ∉ rotation_classes) ∧
   warned (setCustom rotation c)
   = warned c ++ [Z.rem (siteRotation c + default 0 rotation) 360]) ∧
  (default 0 rotation + customRotation c < 0 →
   ¬ (360 | default 0 rotation + customRotation c) →
   (className (setSite rotation c) ∉ rotation_classes) ∧
   warned (setSite rotation c)
   = warned c ++ [Z.rem (default 0 rotation + customRotation c) 360]).
Proof.
  split; intros Hneg Hdiv.
  - by apply (negative_rotation_update
                {| siteRotation := siteRotation c;
                   customRotation := default 0 rotation;
                   className := className c; warned := warned c |}).
  - by apply (negative_rotation_update
                {| siteRotation := default 0 rotation;
                   customRotation := customRotation c;
                   className := className c; warned := warned c |}).
Qed.

(** * Reading the rotation of a Periscope video *)

Lemma endsWith_exclusive tr p q :
  endsWith p q = false → endsWith q p = false →
  endsWith tr p = true → endsWith tr q = false.
Proof.
  unfold endsWith. intros Hpq Hqp Hp.
  apply bool_decide_eq_false in Hpq, Hqp. apply bool_decide_eq_true in Hp.
  apply bool_decide_eq_false. intros Hq.
  destruct (suffix_weak_total _ _ _ Hp Hq); done.
Qed.

(** X18. The three tests of [positionPeriscopeVideo] exclude each other, so
    each rotation is read from its own pattern alone: 90, 180 and 270 exactly
    for a transform ending in the pattern written for it, and [undefined]
    for every other transform. *)
Theorem periscope_rotation_by_pattern tr :
  (periscope_rotation tr = Some 90
   ↔ endsWith tr "matrix(0, 1, -1, 0, 0, 0)" = true) ∧
  (periscope_rotation tr = Some 180
   ↔ endsWith tr "matrix(-1, 0, 0, -1, 0)" = true) ∧
  (periscope_rotation tr = Some 270
   ↔ endsWith tr "matrix(0, -1, 1, 0, 0, 0)" = true) ∧
  (periscope_rotation tr = None
   ↔ endsWith tr "matrix(0, 1, -1, 0, 0, 0)" = false ∧
     endsWith tr "matrix(-1, 0, 0, -1, 0)" = false ∧
     endsWith tr "matrix(0, -1, 1, 0, 0, 0)" = false).
Proof.
  unfold periscope_rotation.
  destruct (endsWith tr "matrix(0, 1, -1, 0, 0, 0)") eqn:H90.
  { rewrite (endsWith_exclusive tr "matrix(0, 1, -1, 0, 0, 0)"
               "matrix(-1, 0, 0, -1, 0)") by done.
    rewrite (endsWith_exclusive tr "matrix(0, 1, -1, 0, 0, 0)"
               "matrix(0, -1, 1, 0, 0, 0)") by done.
    repeat split; try done. by intros (? & _). }
  destruct (endsWith tr "matrix(-1, 0, 0, -1, 0)") eqn:H180.
  { rewrite (endsWith_exclusive tr "matrix(-1, 0, 0, -1, 0)"
               "matrix(0, -1, 1, 0, 0, 0)") by done.
    repeat split; try done. by intros (_ & ? & _). }
  destruct (endsWith tr "matrix(0, -1, 1, 0, 0, 0)") eqn:H270.
  { repeat split; try done. by intros (_ & _ & ?). }
  repeat split; done.
Qed.

(** X19. A transform that ends in a matrix of six values with no
    translation ([, 0, 0)] at its end) is never read as a rotation by 180
    degrees: for the half turn [matrix(-1, 0, 0, -1, 0, 0)] the rotation is
    [undefined], and [setSite] takes its default, 0. *)
Theorem periscope_half_turn_not_read tr c :
  endsWith tr ", 0, 0)" = true →
  periscope_rotation tr ≠ Some 180 ∧
  (endsWith tr "matrix(-1, 0, 0, -1, 0, 0)" = true →
   periscope_rotation tr = None ∧
   siteRotation (positionPeriscopeVideo tr c) = 0).
Proof.
  intros Hend.
  assert (endsWith tr "matrix(-1, 0, 0, -1, 0)" = false) as H180
    by (by apply (endsWith_exclusive tr ", 0, 0)")).
  split.
  - unfold periscope_rotation. rewrite H180.
    by repeat destruct (endsWith tr _).
  - intros Hhalf.
    assert (periscope_rotation tr = None) as Hnone.
    { unfold periscope_rotation.
      rewrite (endsWith_exclusive tr "matrix(-1, 0, 0, -1, 0, 0)"
                 "matrix(0, 1, -1, 0, 0, 0)") by done.
      rewrite H180.
      by rewrite (endsWith_exclusive tr "matrix(-1, 0, 0, -1, 0, 0)"
                    "matrix(0, -1, 1, 0, 0, 0)") by done. }
    split; [done|]. unfold positionPeriscopeVideo. by rewrite Hnone.
Qed.

(** * Finding the media element *)

Lemma on_mutations_from kind els : ∀ w,
  fold_left (λ w el, on_mutation kind el w) els w
  = {| foundMatch :=
         foundMatch w
         || (negb (bool_decide (kind = EmptyString))
             && bool_decide (omap id els ≠ []));
       reported :=
         reported w
         ++ (if bool_decide (kind = EmptyString) || foundMatch w then []
             else take 1 (omap id els));
       lockdowns := lockdowns w + length els |}.
Proof.
  induction els as [|el els IH]; intros [found rep n]; simpl.
  - rewrite andb_false_r, orb_false_r. f_equal.
    + by destruct (_ || _); rewrite app_nil_r.
    + lia.
  - rewrite IH. unfold on_mutation. simpl.
    destruct (bool_decide (kind = EmptyString)) eqn:Hk; simpl.
    + rewrite !orb_false_r. f_equal. lia.
    + destruct el as [e|]; simpl.
      * destruct found; simpl.
        -- f_equal. lia.
        -- rewrite <- app_assoc. simpl. f_equal. lia.
      * f_equal. lia.
Qed.

(** X20. Whatever the mutations of the page, [watchMediaTags] calls
    [onFirstOfKind] at most once, with the element found at the first
    mutation at which the page holds an element of the kind, and never for
    an empty kind; [lockdownMediaTags] runs at every mutation. *)
Theorem watchMediaTags_reports_first kind els :
  reported (on_mutations kind els)
    = (if bool_decide (kind = EmptyString) then [] else take 1 (omap id els)) ∧
  (length (reported (on_mutations kind els)) <= 1)%nat ∧
  lockdowns (on_mutations kind els) = length els.
Proof.
  unfold on_mutations. rewrite on_mutations_from. simpl.
  rewrite orb_false_r. split; [done|]. split; [|done].
  destruct (bool_decide _); simpl; [lia|].
  destruct (omap id els); simpl; lia.
Qed.

Lemma search_iframes_Some iframes : ∀ k i v,
  search_iframes k iframes = Some (i, v) ↔
  ∃ n, i = (k + n)%nat ∧ iframes !! n = Some (Some v) ∧
       ∀ m, (m < n)%nat → iframes !! m = Some None.
Proof.
  induction iframes as [|q iframes IH]; intros k i v; simpl.
  - split; [done|]. by intros (n & _ & ? & _).
  - destruct q as [v'|].
    + split.
      * intros [= <- <-]. exists 0%nat. split; [lia|]. split; [done|]. lia.
      * intros (n & -> & Hn & Hmin). destruct n as [|n].
        -- simpl in Hn. injection Hn as ->. do 2 f_equal. lia.
        -- specialize (Hmin 0%nat ltac:(lia)). done.
    + rewrite IH. split.
      * intros (n & -> & Hn & Hmin). exists (S n). split; [lia|]. split; [done|].
        intros [|m] Hm; [done|]. simpl. apply Hmin. lia.
      * intros (n & -> & Hn & Hmin). destruct n as [|n]; [done|].
        exists n. split; [lia|]. split; [done|].
        intros m Hm. apply (Hmin (S m)). lia.
Qed.

Lemma search_iframes_None iframes : ∀ k,
  search_iframes k iframes = None ↔ ∀ q, q ∈ iframes → q = None.
Proof.
  induction iframes as [|q iframes IH]; intros k; simpl.
  - split; [|done]. by intros _ q ?%elem_of_nil.
  - destruct q as [v|].
    + split; [done|]. intros H. by specialize (H (Some v) ltac:(left)).
    + rewrite IH. split.
      * intros H q [->|?]%elem_of_cons; [done|by apply H].
      * intros H q Hq. apply H. by right.
Qed.

(** X21. [waitForVideo] names an iframe only when the watcher found no
    element in the document within the ten seconds, and then it is the first
    iframe of the document that holds an element; it returns no video
    exactly when the watcher found none and no iframe holds one. *)
Theorem waitForVideo_result raced iframes :
  (∀ v, raced = Some v →
        waitForVideo raced iframes
        = {| search_video := Some v; search_iframe := None |}) ∧
  (∀ i, search_iframe (waitForVideo raced iframes) = Some i →
        raced = None ∧
        (∃ v, search_video (waitForVideo raced iframes) = Some v ∧
              iframes !! i = Some (Some v)) ∧
        ∀ m, (m < i)%nat → iframes !! m = Some None) ∧
  (search_video (waitForVideo raced iframes) = None ↔
   raced = None ∧ ∀ q, q ∈ iframes → q = None).
Proof.
  unfold waitForVideo. destruct raced as [v|].
  - split; [by intros ? [= ->]|]. split; [done|]. simpl. split; [done|].
    by intros [? _].
  - split; [done|].
    destruct (search_iframes 0 iframes) as [[i v]|] eqn:Hs; simpl.
    + apply search_iframes_Some in Hs as (n & -> & Hn & Hmin). simpl.
      split.
      * intros ? [= <-]. split; [done|]. split; [by exists v|done].
      * split; [done|]. intros [_ Hall].
        apply list_elem_of_lookup_2 in Hn. by specialize (Hall _ Hn).
    + split; [done|]. split; [|done]. intros _. split; [done|].
      by apply (search_iframes_None iframes 0%nat).
Qed.

(** * The further properties at sample walls *)

(** The pass of [plain_layout] over [small_wall] sends one command to each
    of the ten views. *)
Lemma setViews_one_command_per_view_witness :
  setViews 640 360 viewStateMachine plain_layout small_wall
  = Normal (outcome (setViews 640 360 viewStateMachine plain_layout small_wall)) ∧
  map fst (issued small_wall
             (outcome (setViews 640 360 viewStateMachine plain_layout small_wall)))
  ≡ₚ all_views small_wall.
Proof.
  split; [reflexivity|].
  exact (proj1 (setViews_one_command_per_view 640 360 viewStateMachine
                  plain_layout small_wall _ eq_refl)).
Defined.

(** [blank_layout] has no url: every view of [small_wall] is cleared. *)
Lemma setViews_empty_layout_clears_all_witness :
  region_urls blank_layout = [] ∧
  is_normal (setViews 640 360 viewStateMachine blank_layout small_wall) = true ∧
  issued small_wall
    (outcome (setViews 640 360 viewStateMachine blank_layout small_wall))
  = map (λ i, (i, CLEAR)) (seq 0 10).
Proof.
  split; [reflexivity|].
  rewrite (setViews_empty_layout_clears_all 640 360 viewStateMachine
             blank_layout small_wall eq_refl).
  split; reflexivity.
Defined.

(** Before [init], a layout with a url throws. *)
Lemma setViews_empty_pool_witness :
  views new_window = [] ∧
  setViews 640 360 viewStateMachine plain_layout new_window = Throw new_window.
Proof.
  split; [reflexivity|].
  rewrite (setViews_empty_pool 640 360 viewStateMachine plain_layout
             new_window eq_refl).
  reflexivity.
Defined.

(** [small_wall] has eight views that are not [displaying], [plain_layout]
    two regions with a url. *)
Lemma setViews_completes_witness :
  (length (region_urls plain_layout) <= length (free_views small_wall))%nat ∧
  is_normal (setViews 640 360 viewStateMachine plain_layout small_wall) = true.
Proof.
  assert (length (region_urls plain_layout) <= length (free_views small_wall))%nat
    as Hlen by (vm_compute; lia).
  split; [exact Hlen|].
  exact (setViews_completes 640 360 viewStateMachine plain_layout small_wall Hlen).
Defined.

(** The third view of [small_wall] displays ["a"] and is sent the [DISPLAY]
    for ["a"]. *)
Lemma setViews_keeps_displayed_url_witness :
  (2%nat, DISPLAY (cell_pos 2 2) "a")
    ∈ issued small_wall
        (outcome (setViews 640 360 viewStateMachine plain_layout small_wall)) ∧
  views small_wall !! 2%nat = Some (shown "a" 0 0) ∧
  value (shown "a" 0 0) = displaying ∧
  url (context (shown "a" 0 0)) = Some "a".
Proof.
  assert ((2%nat, DISPLAY (cell_pos 2 2) "a")
            ∈ issued small_wall
                (outcome (setViews 640 360 viewStateMachine plain_layout small_wall)))
    as Hin by (vm_compute; left).
  split; [exact Hin|]. split; [reflexivity|]. split; [reflexivity|].
  exact (setViews_keeps_displayed_url 640 360 viewStateMachine plain_layout
           small_wall 2 (cell_pos 2 2) "a" (shown "a" 0 0) Hin eq_refl eq_refl).
Defined.

(** The [DISPLAY] sent to the third view of [small_wall] comes from a region
    of [plain_layout]. *)
Lemma setViews_commands_from_layout_witness :
  (2%nat, DISPLAY (cell_pos 2 2) "a")
    ∈ issued small_wall
        (outcome (setViews 640 360 viewStateMachine plain_layout small_wall)) ∧
  (DISPLAY (cell_pos 2 2) "a" = CLEAR ∨
   ∃ box u, box ∈ plain_layout ∧ truthy (box_url box) = Some u ∧
     DISPLAY (cell_pos 2 2) "a"
     = DISPLAY {| pos_x := 640 * box_x box; pos_y := 360 * box_y box;
                  pos_width := 640 * box_w box; pos_height := 360 * box_h box;
                  pos_spaces := box_spaces box |} u).
Proof.
  assert ((2%nat, DISPLAY (cell_pos 2 2) "a")
            ∈ issued small_wall
                (outcome (setViews 640 360 viewStateMachine plain_layout small_wall)))
    as Hin by (vm_compute; left).
  split; [exact Hin|].
  exact (setViews_commands_from_layout 640 360 viewStateMachine plain_layout
           small_wall 2 _ Hin).
Defined.

(** ["a"] is displayed by a view of [small_wall] and asked for by
    [plain_layout]: its [DISPLAY] goes to a view that holds ["a"]. *)
Lemma setViews_reuses_displayed_url_witness :
  setViews 640 360 viewStateMachine plain_layout small_wall
  = Normal (outcome (setViews 640 360 viewStateMachine plain_layout small_wall)) ∧
  "a" ∈ region_urls plain_layout ∧
  ∃ i p s', (i, DISPLAY p "a")
              ∈ issued small_wall
                  (outcome (setViews 640 360 viewStateMachine plain_layout
                              small_wall)) ∧
            views small_wall !! i = Some s' ∧ url (context s') = Some "a".
Proof.
  assert ("a" ∈ region_urls plain_layout) as Hin by (vm_compute; left).
  split; [reflexivity|]. split; [exact Hin|].
  exact (setViews_reuses_displayed_url 640 360 viewStateMachine plain_layout
           small_wall _ 2 (shown "a" 0 0) "a" eq_refl eq_refl eq_refl eq_refl Hin).
Defined.

(** On [started_wall] the two regions of [plain_layout] take the views 0
    and 1. *)
Lemma setViews_fresh_pool_witness :
  (length (region_urls plain_layout) <= length (views started_wall))%nat ∧
  claimed (issued started_wall
             (outcome (setViews 640 360 viewStateMachine plain_layout started_wall)))
  = [0; 1]%nat.
Proof.
  assert (length (region_urls plain_layout) <= length (views started_wall))%nat
    as Hlen by (vm_compute; lia).
  split; [exact Hlen|].
  refine (proj1 (proj2 (setViews_fresh_pool 640 360 viewStateMachine plain_layout
                          started_wall _ Hlen))).
  intros s Hs. simpl in Hs.
  repeat (apply elem_of_cons in Hs as [->|Hs]); try (split; [reflexivity|discriminate]).
  by apply elem_of_nil in Hs.
Defined.

(** On [small_wall] the views that are not [displaying] are left alone. *)
Lemma setListeningView_frame_witness :
  (∀ s, s ∈ views small_wall → value s = displaying → is_Some (pos (context s))) ∧
  ∃ win', setListeningView viewStateMachine 0 small_wall = Normal win' ∧
          views win' !! 0%nat = Some empty_view.
Proof.
  assert (∀ s, s ∈ views small_wall → value s = displaying →
               is_Some (pos (context s))) as Hpos.
  { intros s Hs Hd. simpl in Hs.
    repeat (apply elem_of_cons in Hs as [->|Hs]); try discriminate;
      try (eexists; reflexivity). by apply elem_of_nil in Hs. }
  split; [exact Hpos|].
  destruct (setListeningView_frame viewStateMachine 0 small_wall Hpos)
    as (win' & Hset & _ & Hviews).
  exists win'. split; [exact Hset|].
  apply (proj1 (Hviews 0%nat empty_view eq_refl)). discriminate.
Defined.

(** On [unplaced_wall] the second view has no position: the first view is
    muted, then [setListeningView] throws. *)
Lemma setListeningView_missing_pos_witness :
  views unplaced_wall !! 1%nat
  = Some {| value := displaying;
            context := {| url := Some "b"; info := None; pos := None |};
            muted := false |} ∧
  setListeningView viewStateMachine 2 unplaced_wall
  = Throw (issue viewStateMachine [(0%nat, MUTE)] unplaced_wall).
Proof.
  split; [reflexivity|].
  rewrite (setListeningView_missing_pos viewStateMachine 2 unplaced_wall 1
             _ eq_refl eq_refl eq_refl).
  - reflexivity.
  - intros i s' Hi Hs' _. destruct i as [|i]; [|lia].
    injection Hs' as <-. eexists. reflexivity.
Defined.

Lemma viewStateMachine_mute s e :
  e = MUTE ∨ e = UNMUTE →
  value (viewStateMachine s e) = value s ∧
  pos (context (viewStateMachine s e)) = pos (context s) ∧
  viewStateMachine (viewStateMachine s e) e = viewStateMachine s e.
Proof. intros [-> | ->]; done. Qed.

(** With the state machine of the design document, routing the focus to
    cell 0 a second time changes no view of [small_wall]. *)
Lemma setListeningView_repeat_witness :
  (∀ s, s ∈ views small_wall → value s = displaying → is_Some (pos (context s))) ∧
  ∃ win1 win2,
    setListeningView viewStateMachine 0 small_wall = Normal win1 ∧
    setListeningView viewStateMachine 0 win1 = Normal win2 ∧
    views win2 = views win1.
Proof.
  assert (∀ s, s ∈ views small_wall → value s = displaying →
               is_Some (pos (context s))) as Hpos.
  { intros s Hs Hd. simpl in Hs.
    repeat (apply elem_of_cons in Hs as [->|Hs]); try discriminate;
      try (eexists; reflexivity). by apply elem_of_nil in Hs. }
  split; [exact Hpos|].
  destruct (setListeningView_repeat viewStateMachine 0 small_wall
              viewStateMachine_mute Hpos) as (win1 & win2 & H1 & H2 & _ & Hv).
  exists win1, win2. split; [exact H1|]. split; [exact H2|exact Hv].
Defined.

(** A site rotation of 90 and a custom rotation of 270 give the class
    without rotation. *)
Lemma quarter_turns_are_styled_witness :
  90 ∈ [0; 90; 180; 270] ∧ 270 ∈ [0; 90; 180; 270] ∧
  className (setCustom (Some 270) (setSite (Some 90) (newRotationController "")))
    ∈ rotation_classes.
Proof.
  assert (90 ∈ [0; 90; 180; 270]) as H90 by (right; left).
  assert (270 ∈ [0; 90; 180; 270]) as H270 by (right; right; right; left).
  split; [exact H90|]. split; [exact H270|].
  exact (proj1 (proj2 (proj2
    (quarter_turns_are_styled (setSite (Some 90) (newRotationController ""))
       (Some 270) H90 ltac:(left) H270)))).
Defined.

(** A custom rotation of -90 gives a warning and the class [__rot-90__]. *)
Lemma negative_rotation_is_unstyled_witness :
  className (setCustom (Some (-90)) (newRotationController "")) = "__rot-90__" ∧
  (className (setCustom (Some (-90)) (newRotationController ""))
     ∉ rotation_classes) ∧
  warned (setCustom (Some (-90)) (newRotationController "")) = [-90].
Proof.
  split; [reflexivity|].
  refine (proj1 (negative_rotation_is_unstyled (newRotationController "")
                   (Some (-90))) _ _).
  - simpl. lia.
  - simpl. intros [k Hk]. lia.
Defined.

(** The half turn as a matrix of six values. *)
Lemma periscope_half_turn_not_read_witness :
  endsWith "matrix(-1, 0, 0, -1, 0, 0)" ", 0, 0)" = true ∧
  periscope_rotation "matrix(-1, 0, 0, -1, 0, 0)" = None ∧
  className (positionPeriscopeVideo "matrix(-1, 0, 0, -1, 0, 0)"
               (newRotationController ""))
  = "__rot0__".
Proof.
  split; [reflexivity|].
  split; [|reflexivity].
  exact (proj1 (proj2 (periscope_half_turn_not_read "matrix(-1, 0, 0, -1, 0, 0)"
                         (newRotationController "") eq_refl) eq_refl)).
Defined.
